(** * A file-backed role store: the blob backends and the JSON record store

    Shallow embedding of [packages/ema/src/db]: the [Fs] interface with its
    two implementations ([RealFs], [MemFs]) and the [FileDB] record store
    built on it, together with the [RoleData] declaration of [base.ts].

    The program runs on a JavaScript engine, so three things that are not
    written in the repository are made explicit here:
    - the values [JSON.parse] produces and the property operations the code
      applies to them ([o[k]], [o[k] = v], [delete o[k]], [!x], [??]),
      including lookups that fall through to [Object.prototype];
    - [JSON.parse] and [JSON.stringify], taken as an interface ([JsonCodec])
      whose round-trip law is an explicit assumption ([JsonLaws]); an
      executable codec for the integer fragment of JSON is given in module
      [Json] and shown to satisfy the laws;
    - the operating system behind [node:fs/promises] and the [tmp] package,
      as a small [world] with a fault oracle. *)

From Stdlib Require Import ZArith Ascii String List Lia Permutation.
From Stdlib Require Import Decimal DecimalZ DecimalPos DecimalFacts.
From stdpp Require Import base gmap strings list pretty.


Set Warnings "-register-all".

(* ===================================================================== *)
(** * JavaScript values *)
(* ===================================================================== *)

(** Values that [JSON.parse] can produce.  Numbers are integers: the record
    fields that carry numbers ([createTime], [deleteTime]) are epoch
    milliseconds.  An object is the list of its own enumerable properties,
    in the order they were defined.  (An engine enumerates integer-like
    keys first; the store never relies on the order, and what is proved
    about listings is stated up to permutation.) *)
Inductive jsval : Type :=
| JNull
| JBool (b : bool)
| JNum (n : Z)
| JStr (s : string)
| JArr (items : list jsval)
| JObj (props : list (string * jsval)).

(** ** Own properties of an ordinary object *)

(** [own_get k o]: the own property [k] of [o], if any. *)
Fixpoint own_get {A} (k : string) (o : list (string * A)) : option A :=
  match o with
  | [] => None
  | (k', v) :: o' => if decide (k = k') then Some v else own_get k o'
  end.

(** [own_set k v o]: define or overwrite the own property [k]; an existing
    key keeps its position, a new key goes last. *)
Fixpoint own_set {A} (k : string) (v : A) (o : list (string * A))
  : list (string * A) :=
  match o with
  | [] => [(k, v)]
  | (k', v') :: o' =>
      if decide (k = k') then (k, v) :: o' else (k', v') :: own_set k v o'
  end.

(** [own_delete k o]: remove the own property [k]. *)
Fixpoint own_delete {A} (k : string) (o : list (string * A))
  : list (string * A) :=
  match o with
  | [] => []
  | (k', v') :: o' =>
      if decide (k = k') then own_delete k o' else (k', v') :: own_delete k o'
  end.

(** Keys are unique in every object, at every depth. *)
Fixpoint wf (v : jsval) : bool :=
  match v with
  | JArr items => forallb wf items
  | JObj props =>
      bool_decide (NoDup (map fst props))
      && forallb (fun p => wf (snd p)) props
  | _ => true
  end.

(** ** What a property read can return *)

(** The own property names of [Object.prototype]: every object made by
    [JSON.parse] or by an object literal inherits them. *)
Definition object_prototype_keys : list string :=
  [ "constructor"; "__defineGetter__"; "__defineSetter__"; "hasOwnProperty";
    "__lookupGetter__"; "__lookupSetter__"; "isPrototypeOf";
    "propertyIsEnumerable"; "toString"; "valueOf"; "__proto__";
    "toLocaleString" ].

(** A run-time value as the store's code sees it: [undefined], a JSON value,
    or a member of [Object.prototype] reached through the prototype chain
    (a built-in function, or [Object.prototype] itself for ["__proto__"]). *)
Inductive value : Type :=
| Undefined
| Json (v : jsval)
| Builtin (name : string).

(** [o[k]] on an ordinary object: own property first, then the prototype. *)
Definition js_get (o : list (string * jsval)) (k : string) : value :=
  match own_get k o with
  | Some v => Json v
  | None =>
      if bool_decide (k ∈ object_prototype_keys) then Builtin k else Undefined
  end.

(** [o[k] = v] on an ordinary object, for [v] an object.  With no own
    property ["__proto__"] the assignment reaches the inherited setter,
    which replaces the prototype of [o] and creates no own property. *)
Definition js_assign (o : list (string * jsval)) (k : string) (v : jsval)
  : list (string * jsval) :=
  match own_get k o with
  | None => if bool_decide (k = "__proto__") then o else own_set k v o
  | Some _ => own_set k v o
  end.

(** [!x] is [negb (truthy x)]. *)
Definition truthy_json (v : jsval) : bool :=
  match v with
  | JNull => false
  | JBool b => b
  | JNum n => negb (n =? 0)%Z
  | JStr s => negb (bool_decide (s = EmptyString))
  | JArr _ | JObj _ => true
  end.

Definition truthy (x : value) : bool :=
  match x with
  | Undefined => false
  | Json v => truthy_json v
  | Builtin _ => true
  end.

(** [x ?? y] *)
Definition nullish (x : value) : bool :=
  match x with
  | Undefined | Json JNull => true
  | _ => false
  end.

(** Property-key coercion of [roleData.id]: [undefined] becomes the key
    ["undefined"]. *)
Definition to_property_key (k : option string) : string :=
  match k with
  | Some s => s
  | None => "undefined"
  end.

(* ===================================================================== *)
(** * Effects: state, exceptions, console *)
(* ===================================================================== *)

(** What a [throw] carries.  [ErrnoException code] is a Node system error
    with its [code] property (["ENOENT"], ["EXDEV"], ...). *)
Inductive error : Type :=
| SyntaxError
| TypeError
| ErrnoException (code : string).

(** The result of awaiting a call.  [OutsideSchema] marks a stored document
    whose [roles] member is neither absent, [null] nor an object: the cast
    [as DatabaseSchema] is unchecked, and what the code does with such a
    value depends on prototypes that are not modelled. *)
Inductive outcome (A : Type) : Type :=
| Ok (a : A)
| Throw (e : error)
| OutsideSchema.
Arguments Ok {A} a.
Arguments Throw {A} e.
Arguments OutsideSchema {A}.

(** An awaited computation over a state [St]: the state survives a throw.
    The callers of the store await each call before the next, so [await]
    is sequencing. *)
Definition M (St A : Type) : Type := St -> outcome A * St.

Definition ret {St A} (a : A) : M St A := fun s => (Ok a, s).

Definition throw {St A} (e : error) : M St A := fun s => (Throw e, s).

Definition outside_schema {St A} : M St A := fun s => (OutsideSchema, s).

Definition bind {St A B} (c : M St A) (k : A -> M St B) : M St B :=
  fun s =>
    match c s with
    | (Ok a, s') => k a s'
    | (Throw e, s') => (Throw e, s')
    | (OutsideSchema, s') => (OutsideSchema, s')
    end.

Notation "'await' x '<-' c 'in' k" := (bind c (fun x => k))
  (at level 10, x name, c at level 100, k at level 200).
Notation "c ';;;' k" := (bind c (fun _ => k))
  (at level 100, k at level 200, right associativity).

(** [try { body } catch (e) { handler e }] *)
Definition try_catch {St A} (body : M St A) (handler : error -> M St A)
  : M St A :=
  fun s =>
    match body s with
    | (Throw e, s') => handler e s'
    | r => r
    end.

(** [try { body } finally { fin }]: [fin] runs on every exit of [body]; if
    it throws, its error replaces the result of [body]. *)
Definition try_finally {St A} (body : M St A) (fin : M St unit) : M St A :=
  fun s =>
    let (r, s1) := body s in
    match fin s1 with
    | (Ok _, s2) => (r, s2)
    | (Throw e, s2) => (Throw e, s2)
    | (OutsideSchema, s2) => (OutsideSchema, s2)
    end.

(* ===================================================================== *)
(** * The [Fs] interface and [MemFs] *)
(* ===================================================================== *)

(** [interface Fs { read(path); write(path, content) }] *)
Class Fs (St : Type) : Type := {
  read : string -> M St string;
  write : string -> string -> M St unit
}.

(** [class MemFs]: the state is the private [files] map. *)
#[export] Instance MemFs : Fs (gmap string string) := {|
  read path := fun files =>
    (Ok (match files !! path with Some c => c | None => "{}" end), files);
  write path content := fun files => (Ok tt, <[path := content]> files)
|}.

(* ===================================================================== *)
(** * The operating system behind [RealFs] *)
(* ===================================================================== *)

(** [dirname] of [node:path] (POSIX).  The scan runs from the last
    character down to index 1, skips trailing slashes, and stops at the
    first slash that follows a non-slash. *)
Fixpoint dirname_end (matchedSlash : bool) (rev_tail : list ascii)
  : option nat :=
  match rev_tail with
  | [] => None
  | c :: rest =>
      if Ascii.eqb c "/"%char
      then if matchedSlash then dirname_end true rest
           else Some (S (length rest))
      else dirname_end false rest
  end.

Definition dirname (path : string) : string :=
  match list_ascii_of_string path with
  | [] => "."
  | c0 :: tail =>
      let hasRoot := Ascii.eqb c0 "/"%char in
      match dirname_end true (rev tail) with
      | None => if hasRoot then "/" else "."
      | Some e =>
          if hasRoot && (e =? 1)%nat then "//"
          else string_of_list_ascii (take e (c0 :: tail))
      end
  end.

(** The calls [RealFs] makes, as the operating system sees them. *)
Inductive syscall : Type :=
| SysReadFile (path : string)
| SysMkdir (dir : string)
| SysTmpFile (name : string)
| SysWriteFile (path content : string)
| SysRename (oldPath newPath : string)
| SysUnlink (path : string).

(** The world [RealFs] runs in.
    - [w_files], [w_dirs]: regular files with their content, directories;
    - [w_tmpdir], [w_serial]: [os.tmpdir()] and the supply of names of the
      [tmp] package ([tmp-<pid>-<random>] there, [tmp-<serial>] here);
    - [w_device]: the file system a directory is mounted on;
    - [w_fault]: the fault oracle, the error code a call fails with if the
      environment makes it fail;
    - [w_torn]: what a failed [writeFile] leaves of the content;
    - [w_trace]: the calls issued so far, oldest first. *)
Record world : Type := {
  w_files : gmap string string;
  w_dirs : gset string;
  w_tmpdir : string;
  w_serial : nat;
  w_device : string -> nat;
  w_fault : syscall -> option string;
  w_torn : string -> string;
  w_trace : list syscall
}.

Definition with_files (f : gmap string string) (w : world) : world :=
  {| w_files := f; w_dirs := w_dirs w; w_tmpdir := w_tmpdir w;
     w_serial := w_serial w; w_device := w_device w; w_fault := w_fault w;
     w_torn := w_torn w; w_trace := w_trace w |}.

Definition with_dirs (d : gset string) (w : world) : world :=
  {| w_files := w_files w; w_dirs := d; w_tmpdir := w_tmpdir w;
     w_serial := w_serial w; w_device := w_device w; w_fault := w_fault w;
     w_torn := w_torn w; w_trace := w_trace w |}.

Definition with_serial (n : nat) (w : world) : world :=
  {| w_files := w_files w; w_dirs := w_dirs w; w_tmpdir := w_tmpdir w;
     w_serial := n; w_device := w_device w; w_fault := w_fault w;
     w_torn := w_torn w; w_trace := w_trace w |}.

Definition traced (c : syscall) (w : world) : world :=
  {| w_files := w_files w; w_dirs := w_dirs w; w_tmpdir := w_tmpdir w;
     w_serial := w_serial w; w_device := w_device w; w_fault := w_fault w;
     w_torn := w_torn w; w_trace := w_trace w ++ [c] |}.

(** [readFile(path, "utf-8")] *)
Definition readFile (path : string) : M world string :=
  fun w =>
    let w := traced (SysReadFile path) w in
    match w_fault w (SysReadFile path) with
    | Some code => (Throw (ErrnoException code), w)
    | None =>
        match w_files w !! path with
        | Some content => (Ok content, w)
        | None => (Throw (ErrnoException "ENOENT"), w)
        end
    end.

(** [mkdir(dir, { recursive: true })]: no error if [dir] exists. *)
Definition mkdir (dir : string) : M world unit :=
  fun w =>
    let w := traced (SysMkdir dir) w in
    match w_fault w (SysMkdir dir) with
    | Some code => (Throw (ErrnoException code), w)
    | None => (Ok tt, with_dirs ({[dir]} ∪ w_dirs w) w)
    end.

(** The name [tmp.fileSync()] picks: a file directly under [os.tmpdir()]. *)
Definition tmp_name (w : world) : string :=
  w_tmpdir w +:+ "/tmp-" +:+ pretty (w_serial w).

(** [tmp.fileSync()]: creates a new empty file exclusively and returns its
    name ([tempFile.name]). *)
Definition tmp_fileSync : M world string :=
  fun w =>
    let name := tmp_name w in
    let w := traced (SysTmpFile name) w in
    match w_fault w (SysTmpFile name) with
    | Some code => (Throw (ErrnoException code), w)
    | None =>
        match w_files w !! name with
        | Some _ => (Throw (ErrnoException "EEXIST"), w)
        | None =>
            (Ok name,
             with_serial (S (w_serial w))
               (with_files (<[name := EmptyString]> (w_files w)) w))
        end
    end.

(** [writeFile(path, content, "utf-8")]: a failed write may leave part of
    the content behind. *)
Definition writeFile (path content : string) : M world unit :=
  fun w =>
    let w := traced (SysWriteFile path content) w in
    match w_fault w (SysWriteFile path content) with
    | Some code =>
        (Throw (ErrnoException code),
         with_files (<[path := w_torn w content]> (w_files w)) w)
    | None => (Ok tt, with_files (<[path := content]> (w_files w)) w)
    end.

(** [rename(oldPath, newPath)]: fails with [EXDEV] across file systems and
    leaves both paths as they were on any failure. *)
Definition rename (oldPath newPath : string) : M world unit :=
  fun w =>
    let w := traced (SysRename oldPath newPath) w in
    match w_fault w (SysRename oldPath newPath) with
    | Some code => (Throw (ErrnoException code), w)
    | None =>
        if bool_decide
             (w_device w (dirname oldPath) = w_device w (dirname newPath))
        then
          match w_files w !! oldPath with
          | Some content =>
              (Ok tt,
               with_files (<[newPath := content]> (delete oldPath (w_files w)))
                 w)
          | None => (Throw (ErrnoException "ENOENT"), w)
          end
        else (Throw (ErrnoException "EXDEV"), w)
    end.

(** [tempFile.removeCallback()]: unlinks the temporary file; the [tmp]
    package ignores [ENOENT] here and rethrows anything else. *)
Definition removeCallback (name : string) : M world unit :=
  fun w =>
    let w := traced (SysUnlink name) w in
    match w_fault w (SysUnlink name) with
    | Some code =>
        if bool_decide (code = "ENOENT") then (Ok tt, w)
        else (Throw (ErrnoException code), w)
    | None => (Ok tt, with_files (delete name (w_files w)) w)
    end.

(** [class RealFs] *)
Definition RealFs_read (path : string) : M world string :=
  try_catch (readFile path)
    (fun error =>
       match error with
       | ErrnoException code =>
           if bool_decide (code = "ENOENT") then ret "{}" else throw error
       | _ => throw error
       end).

Definition RealFs_write (path content : string) : M world unit :=
  let dir := dirname path in
  mkdir dir ;;;
  await tempFile <- tmp_fileSync in
  try_finally
    (writeFile tempFile content ;;;
     rename tempFile path)
    (removeCallback tempFile).

#[export] Instance RealFs : Fs world := {|
  read := RealFs_read;
  write := RealFs_write
|}.

(* ===================================================================== *)
(** * [base.ts]: role data *)
(* ===================================================================== *)

Module Role.

(** [interface RoleData]: every field is optional. *)
Record RoleData : Type := {
  id : option string;
  name : option string;
  description : option string;
  prompt : option string;
  createTime : option Z;
  deleteTime : option Z
}.

End Role.

Abbreviation RoleData := Role.RoleData.

Definition field {A} (k : string) (inj : A -> jsval) (x : option A)
  : list (string * jsval) :=
  match x with
  | Some a => [(k, inj a)]
  | None => []
  end.

(** The object a caller passes as [roleData], as [JSON.stringify] sees it:
    a field that is absent or [undefined] is not written. *)
Definition role_object (r : RoleData) : jsval :=
  JObj (field "id" JStr (Role.id r)
        ++ field "name" JStr (Role.name r)
        ++ field "description" JStr (Role.description r)
        ++ field "prompt" JStr (Role.prompt r)
        ++ field "createTime" JNum (Role.createTime r)
        ++ field "deleteTime" JNum (Role.deleteTime r)).

(* ===================================================================== *)
(** * [JSON.parse] and [JSON.stringify] *)
(* ===================================================================== *)

(** [JSON_parse s] is [None] when [JSON.parse(s)] throws a [SyntaxError];
    [JSON_stringify v] is [JSON.stringify(v, null, 2)]. *)
Class JsonCodec : Type := {
  JSON_parse : string -> option jsval;
  JSON_stringify : jsval -> string
}.

(** What the store relies on: a document that was stringified parses back
    to itself, parsing yields objects with unique keys, and ["{}"] is the
    empty object. *)
Record JsonLaws (C : JsonCodec) : Prop := {
  parse_stringify : forall v, wf v = true -> JSON_parse (JSON_stringify v) = Some v;
  parse_wf : forall s v, JSON_parse s = Some v -> wf v = true;
  parse_empty_object : JSON_parse "{}" = Some (JObj [])
}.

(* ===================================================================== *)
(** * [class FileDB] *)
(* ===================================================================== *)

Inductive log_entry : Type :=
| console_error (message : string)
| console_warn (message : string).

(** The state a [FileDB] call runs against: the state of its [fs] and the
    console. *)
Record process (St : Type) : Type := {
  disk : St;
  console : list log_entry
}.
Arguments disk {St} p.
Arguments console {St} p.
Arguments Build_process {St} disk console.

(** Run a call of [this.fs]. *)
Definition on_disk {St A} (c : M St A) : M (process St) A :=
  fun p =>
    let (r, d) := c (disk p) in
    (r, {| disk := d; console := console p |}).

Definition log {St} (e : log_entry) : M (process St) unit :=
  fun p => (Ok tt, {| disk := disk p; console := console p ++ [e] |}).

Section FileDB.

Context {codec : JsonCodec} {St : Type} {fs : Fs St}.

(** [private readonly dbPath: string = ".data/db.json"] *)
Variable dbPath : string.

Definition emptyDb : jsval := JObj [("roles", JObj [])].

(** [private async writeDb(db)] *)
Definition writeDb (db : jsval) : M (process St) unit :=
  let content := JSON_stringify db in
  on_disk (write dbPath content).

(** [private async readDb()].  The text of the engine's [SyntaxError] that
    follows in the first message is not modelled. *)
Definition readDb : M (process St) jsval :=
  await content <- on_disk (read dbPath) in
  match JSON_parse content with
  | Some db => ret db
  | None =>
      log (console_error
             ("Failed to parse database file " +:+ dbPath +:+ ": SyntaxError")) ;;;
      log (console_warn
             ("Resetting database file " +:+ dbPath
              +:+ " to an empty state due to parse failure.")) ;;;
      writeDb emptyDb ;;;
      ret emptyDb
  end.

(** [db.roles]: reading a member of [null] throws; a primitive or an array
    has no member [roles]. *)
Definition get_roles (db : jsval) : M (process St) value :=
  match db with
  | JNull => throw TypeError
  | JObj d => ret (js_get d "roles")
  | _ => ret Undefined
  end.

(** [async listRoles()]: [Object.values(db.roles ?? {})] *)
Definition listRoles : M (process St) (list jsval) :=
  await db <- readDb in
  await roles <- get_roles db in
  match roles with
  | Undefined | Json JNull => ret []
  | Json (JObj r) => ret (map snd r)
  | _ => outside_schema
  end.

(** [async getRole(roleId)]: [db.roles?.[roleId] ?? null] *)
Definition getRole (roleId : string) : M (process St) value :=
  await db <- readDb in
  await roles <- get_roles db in
  match roles with
  | Undefined | Json JNull => ret (Json JNull)
  | Json (JObj r) =>
      let found := js_get r roleId in
      ret (if nullish found then Json JNull else found)
  | _ => outside_schema
  end.

(** [async upsertRole(roleData)].  The function has no [return]: the
    promise resolves to [undefined].  Assigning [db.roles = {}] throws on a
    primitive; on an array it adds a property that [JSON.stringify]
    does not write. *)
Definition upsertRole (roleData : RoleData) : M (process St) value :=
  await db <- readDb in
  let key := to_property_key (Role.id roleData) in
  match db with
  | JNull | JBool _ | JNum _ | JStr _ => throw TypeError
  | JArr _ => writeDb db ;;; ret Undefined
  | JObj d =>
      match js_get d "roles" with
      | Undefined | Json JNull =>
          let roles := js_assign [] key (role_object roleData) in
          writeDb (JObj (own_set "roles" (JObj roles) d)) ;;;
          ret Undefined
      | Json (JObj r) =>
          let roles := js_assign r key (role_object roleData) in
          writeDb (JObj (own_set "roles" (JObj roles) d)) ;;;
          ret Undefined
      | _ => outside_schema
      end
  end.

(** [async deleteRole(roleId)] *)
Definition deleteRole (roleId : string) : M (process St) bool :=
  await db <- readDb in
  await roles <- get_roles db in
  match db, roles with
  | _, Undefined | _, Json JNull => ret false
  | JObj d, Json (JObj r) =>
      if negb (truthy (js_get r roleId)) then ret false
      else
        writeDb (JObj (own_set "roles" (JObj (own_delete roleId r)) d)) ;;;
        ret true
  | _, _ => outside_schema
  end.

End FileDB.

(* ===================================================================== *)
(** * An executable codec *)
(* ===================================================================== *)

(** A printer that lays documents out as [JSON.stringify(v, null, 2)] does,
    and a parser for the JSON grammar restricted to what the values above
    can hold: numbers are integer literals, and a [\u] escape must denote
    an ASCII character.  Text outside this fragment is rejected. *)
Module Json.

Definition dquote : ascii := "034"%char.
Definition backslash : ascii := "092"%char.
Definition newline : ascii := "010"%char.

(** ** Printing *)

Definition hex_char (n : nat) : ascii :=
  nth n (list_ascii_of_string "0123456789abcdef") "0"%char.

(** [QuoteJSONString], one character at a time. *)
Definition escape_char (c : ascii) : list ascii :=
  let n := nat_of_ascii c in
  if (n =? 34)%nat then [backslash; dquote]
  else if (n =? 92)%nat then [backslash; backslash]
  else if (n =? 8)%nat then [backslash; "b"%char]
  else if (n =? 9)%nat then [backslash; "t"%char]
  else if (n =? 10)%nat then [backslash; "n"%char]
  else if (n =? 12)%nat then [backslash; "f"%char]
  else if (n =? 13)%nat then [backslash; "r"%char]
  else if (n <? 32)%nat
       then [backslash; "u"%char; "0"%char; "0"%char;
             hex_char (n / 16); hex_char (n mod 16)]
  else [c].

Fixpoint escape (s : string) : list ascii :=
  match s with
  | EmptyString => []
  | String c s' => escape_char c ++ escape s'
  end.

Definition print_string (s : string) : list ascii :=
  dquote :: escape s ++ [dquote].

Fixpoint print_uint (d : Decimal.uint) : list ascii :=
  match d with
  | Nil => []
  | D0 d => "0"%char :: print_uint d
  | D1 d => "1"%char :: print_uint d
  | D2 d => "2"%char :: print_uint d
  | D3 d => "3"%char :: print_uint d
  | D4 d => "4"%char :: print_uint d
  | D5 d => "5"%char :: print_uint d
  | D6 d => "6"%char :: print_uint d
  | D7 d => "7"%char :: print_uint d
  | D8 d => "8"%char :: print_uint d
  | D9 d => "9"%char :: print_uint d
  end.

Definition print_number (n : Z) : list ascii :=
  match Z.to_int n with
  | Pos d => print_uint d
  | Neg d => "-"%char :: print_uint d
  end.

(** A line break followed by the indentation of the current depth. *)
Definition break (indent : nat) : list ascii :=
  newline :: repeat " "%char indent.

(** The elements of a non-empty array or object, each on its own line. *)
Fixpoint print_seq {A} (nl : list ascii) (f : A -> list ascii) (l : list A)
  : list ascii :=
  match l with
  | [] => []
  | x :: l' =>
      nl ++ f x ++ match l' with
                   | [] => []
                   | _ => ","%char :: print_seq nl f l'
                   end
  end.

Fixpoint print (indent : nat) (v : jsval) : list ascii :=
  match v with
  | JNull => list_ascii_of_string "null"
  | JBool true => list_ascii_of_string "true"
  | JBool false => list_ascii_of_string "false"
  | JNum n => print_number n
  | JStr s => print_string s
  | JArr [] => list_ascii_of_string "[]"
  | JArr items =>
      "["%char :: print_seq (break (2 + indent)) (print (2 + indent)) items
      ++ break indent ++ ["]"%char]
  | JObj [] => list_ascii_of_string "{}"
  | JObj props =>
      "{"%char
      :: print_seq (break (2 + indent))
           (fun p => print_string (fst p) ++ ":"%char :: " "%char
                     :: print (2 + indent) (snd p))
           props
      ++ break indent ++ ["}"%char]
  end.

(** Fuel that [parse_value] needs to read a value back. *)
Fixpoint weight (v : jsval) : nat :=
  match v with
  | JArr items => S (list_sum (map (fun x => S (weight x)) items))
  | JObj props => S (list_sum (map (fun p => S (weight (snd p))) props))
  | _ => 1
  end.

Definition stringify (v : jsval) : string :=
  string_of_list_ascii (print 0 v).

(** ** Parsing *)

Definition is_ws (c : ascii) : bool :=
  let n := nat_of_ascii c in
  (n =? 32)%nat || (n =? 10)%nat || (n =? 13)%nat || (n =? 9)%nat.

Fixpoint skip_ws (s : list ascii) : list ascii :=
  match s with
  | c :: s' => if is_ws c then skip_ws s' else s
  | [] => []
  end.

Definition hex_val (c : ascii) : option nat :=
  let n := nat_of_ascii c in
  if (48 <=? n)%nat && (n <=? 57)%nat then Some (n - 48)
  else if (97 <=? n)%nat && (n <=? 102)%nat then Some (n - 87)
  else if (65 <=? n)%nat && (n <=? 70)%nat then Some (n - 55)
  else None.

(** The character an escape sequence denotes, and the input after it. *)
Definition parse_escape (s : list ascii) : option (ascii * list ascii) :=
  match s with
  | e :: s' =>
      let n := nat_of_ascii e in
      if (n =? 34)%nat then Some (dquote, s')
      else if (n =? 92)%nat then Some (backslash, s')
      else if (n =? 47)%nat then Some ("/"%char, s')
      else if (n =? 98)%nat then Some ("008"%char, s')
      else if (n =? 116)%nat then Some ("009"%char, s')
      else if (n =? 110)%nat then Some ("010"%char, s')
      else if (n =? 102)%nat then Some ("012"%char, s')
      else if (n =? 114)%nat then Some ("013"%char, s')
      else if (n =? 117)%nat then
        match s' with
        | h1 :: h2 :: h3 :: h4 :: s'' =>
            match hex_val h1, hex_val h2, hex_val h3, hex_val h4 with
            | Some 0, Some 0, Some a, Some b =>
                if (a <? 8)%nat then Some (ascii_of_nat (16 * a + b), s'')
                else None
            | _, _, _, _ => None
            end
        | _ => None
        end
      else None
  | [] => None
  end.

(** The characters of a string literal after its opening quote. *)
Fixpoint parse_chars (fuel : nat) (s : list ascii)
  : option (string * list ascii) :=
  match fuel with
  | 0 => None
  | S fuel =>
      match s with
      | [] => None
      | c :: s' =>
          let n := nat_of_ascii c in
          if (n =? 34)%nat then Some (EmptyString, s')
          else if (n =? 92)%nat then
            match parse_escape s' with
            | Some (d, s'') =>
                match parse_chars fuel s'' with
                | Some (str, rest) => Some (String d str, rest)
                | None => None
                end
            | None => None
            end
          else if (n <? 32)%nat then None
          else
            match parse_chars fuel s' with
            | Some (str, rest) => Some (String c str, rest)
            | None => None
            end
      end
  end.

Definition digit_of (c : ascii) : option (Decimal.uint -> Decimal.uint) :=
  match nat_of_ascii c with
  | 48 => Some D0 | 49 => Some D1 | 50 => Some D2 | 51 => Some D3
  | 52 => Some D4 | 53 => Some D5 | 54 => Some D6 | 55 => Some D7
  | 56 => Some D8 | 57 => Some D9
  | _ => None
  end.

(** The first character of an integer literal. *)
Definition number_start (c : ascii) : bool :=
  (nat_of_ascii c =? 45)%nat
  || match digit_of c with Some _ => true | None => false end.

Fixpoint parse_digits (s : list ascii) : Decimal.uint * list ascii :=
  match s with
  | c :: s' =>
      match digit_of c with
      | Some d => let (ds, rest) := parse_digits s' in (d ds, rest)
      | None => (Nil, s)
      end
  | [] => (Nil, [])
  end.

(** An integer literal: at least one digit, no leading zero. *)
Definition well_formed_digits (d : Decimal.uint) : bool :=
  match d with
  | Nil => false
  | D0 Nil => true
  | D0 _ => false
  | _ => true
  end.

Definition parse_number (s : list ascii) : option (Z * list ascii) :=
  match s with
  | c :: s' =>
      if (nat_of_ascii c =? 45)%nat then
        let (d, rest) := parse_digits s' in
        if well_formed_digits d then Some (Z.of_int (Neg d), rest) else None
      else
        let (d, rest) := parse_digits s in
        if well_formed_digits d then Some (Z.of_int (Pos d), rest) else None
  | [] => None
  end.

Definition expect (word : string) (s : list ascii) : option (list ascii) :=
  let w := list_ascii_of_string word in
  if bool_decide (take (length w) s = w) then Some (drop (length w) s)
  else None.

(** The parser proper.  [parse_value] reads one value; [parse_items] reads
    the elements of a non-empty array up to its closing bracket and
    [parse_members] the members of a non-empty object up to its closing
    brace.  Members are defined in the order they are read, so a repeated
    key keeps its first position and its last value. *)
Fixpoint parse_value (fuel : nat) (s : list ascii)
  : option (jsval * list ascii) :=
  match fuel with
  | 0 => None
  | S fuel =>
      match skip_ws s with
      | [] => None
      | c :: s' =>
          let n := nat_of_ascii c in
          if (n =? 110)%nat then
            match expect "ull" s' with
            | Some rest => Some (JNull, rest) | None => None
            end
          else if (n =? 116)%nat then
            match expect "rue" s' with
            | Some rest => Some (JBool true, rest) | None => None
            end
          else if (n =? 102)%nat then
            match expect "alse" s' with
            | Some rest => Some (JBool false, rest) | None => None
            end
          else if (n =? 34)%nat then
            match parse_chars (length s') s' with
            | Some (str, rest) => Some (JStr str, rest) | None => None
            end
          else if (n =? 91)%nat then
            match skip_ws s' with
            | c1 :: s1 =>
                if (nat_of_ascii c1 =? 93)%nat then Some (JArr [], s1)
                else
                  match parse_items fuel s' with
                  | Some (vs, rest) => Some (JArr vs, rest)
                  | None => None
                  end
            | [] => None
            end
          else if (n =? 123)%nat then
            match skip_ws s' with
            | c1 :: s1 =>
                if (nat_of_ascii c1 =? 125)%nat then Some (JObj [], s1)
                else
                  match parse_members fuel [] s' with
                  | Some (ms, rest) => Some (JObj ms, rest)
                  | None => None
                  end
            | [] => None
            end
          else
            match parse_number (c :: s') with
            | Some (z, rest) => Some (JNum z, rest) | None => None
            end
      end
  end
with parse_items (fuel : nat) (s : list ascii)
  : option (list jsval * list ascii) :=
  match fuel with
  | 0 => None
  | S fuel =>
      match parse_value fuel s with
      | Some (v, rest) =>
          match skip_ws rest with
          | c :: s' =>
              let n := nat_of_ascii c in
              if (n =? 93)%nat then Some ([v], s')
              else if (n =? 44)%nat then
                match parse_items fuel s' with
                | Some (vs, rest') => Some (v :: vs, rest')
                | None => None
                end
              else None
          | [] => None
          end
      | None => None
      end
  end
with parse_members (fuel : nat) (acc : list (string * jsval))
       (s : list ascii) : option (list (string * jsval) * list ascii) :=
  match fuel with
  | 0 => None
  | S fuel =>
      match skip_ws s with
      | q :: s1 =>
          if (nat_of_ascii q =? 34)%nat then
            match parse_chars (length s1) s1 with
            | Some (k, s2) =>
                match skip_ws s2 with
                | colon :: s3 =>
                    if (nat_of_ascii colon =? 58)%nat then
                      match parse_value fuel s3 with
                      | Some (v, rest) =>
                          match skip_ws rest with
                          | c :: s' =>
                              let n := nat_of_ascii c in
                              if (n =? 125)%nat
                              then Some (own_set k v acc, s')
                              else if (n =? 44)%nat
                              then parse_members fuel (own_set k v acc) s'
                              else None
                          | [] => None
                          end
                      | None => None
                      end
                    else None
                | [] => None
                end
            | None => None
            end
          else None
      | [] => None
      end
  end.

Definition parse (s : string) : option jsval :=
  let input := list_ascii_of_string s in
  match parse_value (S (length input)) input with
  | Some (v, rest) =>
      match skip_ws rest with
      | [] => Some v
      | _ => None
      end
  | None => None
  end.

End Json.

#[export] Instance json_codec : JsonCodec := {|
  JSON_parse := Json.parse;
  JSON_stringify := Json.stringify
|}.

(* ===================================================================== *)
(** * A [FileDB] over [MemFs]: what is stored *)
(* ===================================================================== *)

Section stored_document.

Context {codec : JsonCodec}.
Variable dbPath : string.

Implicit Type p : process (gmap string string).

(** The text [this.fs.read(this.dbPath)] yields. *)
Definition blob p : string :=
  match disk p !! dbPath with
  | Some content => content
  | None => "{}"
  end.

(** The document a call works on: what [readDb] returns. *)
Definition load p : jsval :=
  match JSON_parse (blob p) with
  | Some db => db
  | None => emptyDb
  end.

(** The store after [writeDb db]. *)
Definition put (db : jsval) p : process (gmap string string) :=
  {| disk := <[dbPath := JSON_stringify db]> (disk p);
     console := console p |}.

(** The store after [readDb]: untouched if the text parses, reset to the
    empty schema otherwise. *)
Definition settled p : process (gmap string string) :=
  match JSON_parse (blob p) with
  | Some _ => p
  | None =>
      put emptyDb
        {| disk := disk p;
           console :=
             console p
             ++ [console_error
                   ("Failed to parse database file " +:+ dbPath
                    +:+ ": SyntaxError");
                 console_warn
                   ("Resetting database file " +:+ dbPath
                    +:+ " to an empty state due to parse failure.")] |}
  end.

End stored_document.

(** The document inhabits [DatabaseSchema]: an object whose [roles] member
    is absent, [null] or an object. *)
Definition schema (db : jsval) : bool :=
  match db with
  | JObj d =>
      match own_get "roles" d with
      | None | Some JNull | Some (JObj _) => true
      | Some _ => false
      end
  | _ => false
  end.

(** The [roles] object of a document, if it has one. *)
Definition roles_object (db : jsval) : option (list (string * jsval)) :=
  match db with
  | JObj d =>
      match own_get "roles" d with
      | Some (JObj r) => Some r
      | _ => None
      end
  | _ => None
  end.

(** The entries of the [roles] mapping of a document. *)
Definition roles_in (db : jsval) : list (string * jsval) :=
  match roles_object db with
  | Some r => r
  | None => []
  end.

(** The document with its [roles] mapping replaced. *)
Definition with_roles (r : list (string * jsval)) (db : jsval) : jsval :=
  match db with
  | JObj d => JObj (own_set "roles" (JObj r) d)
  | _ => db
  end.

(** [v.id == k] for an entry [(k, v)] of the mapping. *)
Definition id_is (k : string) (v : jsval) : Prop :=
  match v with
  | JObj props => js_get props "id" = Json (JStr k)
  | _ => False
  end.

(** The invariant of the persisted document: it inhabits the schema and
    every entry is filed under its own id. *)
Definition keyed_by_id (db : jsval) : Prop :=
  schema db = true /\ forall k v, (k, v) ∈ roles_in db -> id_is k v.

(* ===================================================================== *)
(** * The store as a transition system *)
(* ===================================================================== *)

(** A fresh [MemFs] and a silent console. *)
Definition empty_store : process (gmap string string) :=
  {| disk := ∅; console := [] |}.

(** What happens to a store: the four calls of [RoleDB], and damage to the
    backing text from outside the store. *)
Inductive event : Type :=
| ListRoles
| GetRole (roleId : string)
| UpsertRole (roleData : RoleData)
| DeleteRole (roleId : string)
| Damage (content : string).

Section transitions.

Context {codec : JsonCodec}.
Variable dbPath : string.

Definition after (e : event) (p : process (gmap string string))
  : process (gmap string string) :=
  match e with
  | ListRoles => snd (listRoles dbPath p)
  | GetRole roleId => snd (getRole dbPath roleId p)
  | UpsertRole roleData => snd (upsertRole dbPath roleData p)
  | DeleteRole roleId => snd (deleteRole dbPath roleId p)
  | Damage content =>
      {| disk := <[dbPath := content]> (disk p); console := console p |}
  end.

(** Records are upserted with their [id] set; damaged text does not
    parse. *)
Definition admissible (e : event) : Prop :=
  match e with
  | UpsertRole roleData => is_Some (Role.id roleData)
  | Damage content => JSON_parse content = None
  | _ => True
  end.

Inductive reachable : process (gmap string string) -> Prop :=
| reachable_empty : reachable empty_store
| reachable_step e p :
    admissible e -> reachable p -> reachable (after e p).

(** The store after upserting the records of a list, in order. *)
Definition upsert_all (rs : list RoleData) (p : process (gmap string string))
  : process (gmap string string) :=
  fold_left (fun q r => snd (upsertRole dbPath r q)) rs p.

End transitions.

(* ===================================================================== *)
(** * Worlds for [RealFs] *)
(* ===================================================================== *)

(** [rename(oldPath, newPath)] fails in [w] with [code]: the environment
    makes it fail, or the two paths lie on different file systems. *)
Definition rename_fails (w : world) (oldPath newPath code : string) : Prop :=
  w_fault w (SysRename oldPath newPath) = Some code
  ∨ (w_fault w (SysRename oldPath newPath) = None
     /\ w_device w (dirname oldPath) ≠ w_device w (dirname newPath)
     /\ code = "EXDEV").

(** An empty disk with [os.tmpdir()] at [/tmp], everything on one file
    system, and an environment that makes no call fail. *)
Definition quiet_world : world :=
  {| w_files := ∅; w_dirs := ∅; w_tmpdir := "/tmp"; w_serial := 0;
     w_device := fun _ => 0; w_fault := fun _ => None;
     w_torn := fun _ => EmptyString; w_trace := [] |}.

(** The same, with [/tmp] mounted on a file system of its own. *)
Definition split_world : world :=
  {| w_files := ∅; w_dirs := ∅; w_tmpdir := "/tmp"; w_serial := 0;
     w_device := fun d => if bool_decide (d = "/tmp") then 1 else 0;
     w_fault := fun _ => None;
     w_torn := fun _ => EmptyString; w_trace := [] |}.

(* ===================================================================== *)
(** * Notions used to show the codec correct *)
(* ===================================================================== *)

(** What may follow a printed value: not a digit. *)
Definition terminated (rest : list ascii) : Prop :=
  match rest with
  | [] => True
  | c :: _ => Json.digit_of c = None
  end.

(** A value starts with a character that is neither white space nor a
    closing bracket or brace. *)
Definition value_start (c : ascii) : Prop :=
  Json.is_ws c = false
  /\ (nat_of_ascii c =? 93)%nat = false
  /\ (nat_of_ascii c =? 125)%nat = false.

(** A member of an object as [Json.print] lays it out. *)
Definition print_member (indent : nat) (p : string * jsval) : list ascii :=
  Json.print_string (fst p) ++ ":"%char :: " "%char
  :: Json.print indent (snd p).

(** What follows an element inside an array or object. *)
Definition after_element {A} (nl : list ascii) (f : A -> list ascii)
    (l : list A) (closing : list ascii) : list ascii :=
  match l with
  | [] => []
  | _ => ","%char :: Json.print_seq nl f l
  end ++ closing.

(** [v] is read back from its printed form, at any indentation and before
    any text that does not continue a number. *)
Definition reads_back (v : jsval) : Prop :=
  forall indent fuel rest,
    Json.weight v <= fuel -> terminated rest ->
    Json.parse_value fuel (Json.print indent v ++ rest) = Some (v, rest).

(** Induction on values that reaches into arrays and objects. *)
Section jsval_nested_induction.

Variable P : jsval -> Prop.
Hypothesis Hnull : P JNull.
Hypothesis Hbool : forall b, P (JBool b).
Hypothesis Hnum : forall n, P (JNum n).
Hypothesis Hstr : forall s, P (JStr s).
Hypothesis Harr : forall items, Forall P items -> P (JArr items).
Hypothesis Hobj : forall props, Forall (fun p => P (snd p)) props -> P (JObj props).

Fixpoint jsval_nested_ind (v : jsval) : P v :=
  match v with
  | JNull => Hnull
  | JBool b => Hbool b
  | JNum n => Hnum n
  | JStr s => Hstr s
  | JArr items =>
      Harr items
        ((fix all (l : list jsval) : Forall P l :=
            match l with
            | [] => List.Forall_nil P
            | x :: l' => @List.Forall_cons _ P x l' (jsval_nested_ind x) (all l')
            end) items)
  | JObj props =>
      Hobj props
        ((fix all (l : list (string * jsval)) : Forall (fun p => P (snd p)) l :=
            match l with
            | [] => List.Forall_nil _
            | p :: l' =>
                @List.Forall_cons _ (fun p => P (snd p)) p l'
                  (jsval_nested_ind (snd p)) (all l')
            end) props)
  end.

End jsval_nested_induction.

(* ===================================================================== *)
(** * Concrete stores and records *)
(* ===================================================================== *)

(** The default [dbPath] of the [FileDB] constructor. *)
Definition default_dbPath : string := ".data/db.json".

Definition role (id name : option string) : RoleData :=
  {| Role.id := id; Role.name := name; Role.description := None;
     Role.prompt := None; Role.createTime := None; Role.deleteTime := None |}.

(** A store whose backing text is not JSON. *)
Definition damaged_store : process (gmap string string) :=
  {| disk := {[ default_dbPath := "not json" ]}; console := [] |}.

(** A store holding the empty schema [{ roles: {} }], as written by a
    reset. *)
Definition reset_store : process (gmap string string) :=
  {| disk := {[ default_dbPath := Json.stringify emptyDb ]}; console := [] |}.

(** A store whose backing text is the JSON document [null]. *)
Definition null_store : process (gmap string string) :=
  {| disk := {[ default_dbPath := "null" ]}; console := [] |}.

(** A world with a database file in place and no room to write: every
    [writeFile] fails with [ENOSPC] and leaves nothing behind. *)
Definition full_disk_world : world :=
  {| w_files := {[ default_dbPath := "{}" ]}; w_dirs := {[ ".data" ]};
     w_tmpdir := "/tmp"; w_serial := 0;
     w_device := fun _ => 0;
     w_fault := fun c =>
       match c with
       | SysWriteFile _ _ => Some "ENOSPC"
       | _ => None
       end;
     w_torn := fun _ => EmptyString; w_trace := [] |}.

(* ===================================================================== *)
(** * Notions for further properties *)
(* ===================================================================== *)

(** The environment makes no call fail. *)
Definition calm (w : world) : Prop := forall c, w_fault w c = None.

(** The text [RealFs.read(path)] yields in a calm world. *)
Definition file_text (path : string) (w : world) : string :=
  match w_files w !! path with
  | Some content => content
  | None => "{}"
  end.

(** A member of the stored document other than through [roles]. *)
Definition document_member (m : string) (db : jsval) : option jsval :=
  match db with
  | JObj d => own_get m d
  | _ => None
  end.

(** A document that is JSON but neither an object, an array nor [null]. *)
Definition primitive (db : jsval) : bool :=
  match db with
  | JBool _ | JNum _ | JStr _ => true
  | _ => false
  end.

(** A world whose disk is full: the environment fails every [writeFile]
    with [code] and no other call. *)
Definition write_fails_with (code : string) (w : world) : Prop :=
  forall c,
    w_fault w c = match c with
                  | SysWriteFile _ _ => Some code
                  | _ => None
                  end.

(** A world in which reading the database file is refused. *)
Definition unreadable_world : world :=
  {| w_files := {[ default_dbPath := "{}" ]}; w_dirs := {[ ".data" ]};
     w_tmpdir := "/tmp"; w_serial := 0;
     w_device := fun _ => 0;
     w_fault := fun c =>
       match c with
       | SysReadFile _ => Some "EACCES"
       | _ => None
       end;
     w_torn := fun _ => EmptyString; w_trace := [] |}.

(** A store whose backing text is the JSON number [42]. *)
Definition number_store : process (gmap string string) :=
  {| disk := {[ default_dbPath := "42" ]}; console := [] |}.

(** A store whose backing text is the JSON array [[1]]. *)
Definition array_store : process (gmap string string) :=
  {| disk := {[ default_dbPath := "[1]" ]}; console := [] |}.

(** A store holding the record [{ id: "x", name: "n" }]. *)
Definition one_role_store : process (gmap string string) :=
  snd (upsertRole default_dbPath (role (Some "x") (Some "n")) empty_store).

(** A store holding the records [x] and [y]. *)
Definition two_roles_store : process (gmap string string) :=
  upsert_all default_dbPath
    [role (Some "x") (Some "n"); role (Some "y") (Some "m")] empty_store.

(** A store whose document has a member besides [roles]. *)
Definition versioned_store : process (gmap string string) :=
  {| disk :=
       {[ default_dbPath :=
            Json.stringify (JObj [("version", JNum 1); ("roles", JObj [])]) ]};
     console := [] |}.

(** A [MemFs] that holds another blob next to a damaged database. *)
Definition shared_store : process (gmap string string) :=
  {| disk := {[ "other.txt" := "data"; default_dbPath := "not json" ]};
     console := [] |}.

(* ===================================================================== *)
(** * Own properties: basic facts *)
(* ===================================================================== *)

Section own_props.

Context {A : Type}.
Implicit Types (o : list (string * A)) (k : string) (v : A).

Lemma own_get_set_eq o k v : own_get k (own_set k v o) = Some v.
Proof.
  induction o as [|[k' v'] o IH]; simpl.
  - by rewrite decide_True.
  - destruct (decide (k = k')) as [->|Hne]; simpl.
    + by rewrite decide_True.
    + by rewrite decide_False.
Qed.

Lemma own_get_set_ne o k k' v :
  k' ≠ k -> own_get k' (own_set k v o) = own_get k' o.
Proof.
  intros Hne. induction o as [|[k0 v0] o IH]; simpl.
  - by rewrite decide_False.
  - destruct (decide (k = k0)) as [->|Hk]; simpl.
    + by rewrite !decide_False.
    + destruct (decide (k' = k0)); [done | apply IH].
Qed.

Lemma own_get_delete_eq o k : own_get k (own_delete k o) = None.
Proof.
  induction o as [|[k' v'] o IH]; simpl; [done|].
  destruct (decide (k = k')) as [->|Hne]; simpl; [done|].
  by rewrite decide_False.
Qed.

Lemma own_get_delete_ne o k k' :
  k' ≠ k -> own_get k' (own_delete k o) = own_get k' o.
Proof.
  intros Hne. induction o as [|[k0 v0] o IH]; simpl; [done|].
  destruct (decide (k = k0)) as [->|Hk]; simpl.
  - by rewrite decide_False.
  - destruct (decide (k' = k0)); [done | apply IH].
Qed.

Lemma own_get_None o k : own_get k o = None <-> k ∉ map fst o.
Proof.
  induction o as [|[k' v'] o IH]; simpl.
  - split; [intros _; apply not_elem_of_nil | done].
  - rewrite not_elem_of_cons. destruct (decide (k = k')) as [->|Hne].
    + split; [done | intros [? _]; done].
    + rewrite IH. tauto.
Qed.

Lemma own_get_Some_elem o k v : own_get k o = Some v -> (k, v) ∈ o.
Proof.
  induction o as [|[k' v'] o IH]; simpl; [done|].
  destruct (decide (k = k')) as [->|Hne].
  - intros [= ->]. apply list_elem_of_here.
  - intros H. apply list_elem_of_further, IH, H.
Qed.

Lemma own_get_elem o k v : NoDup (map fst o) -> (k, v) ∈ o -> own_get k o = Some v.
Proof.
  induction o as [|[k' v'] o IH]; simpl; intros Hnd Hin.
  - by apply elem_of_nil in Hin.
  - apply NoDup_cons in Hnd as [Hk' Hnd].
    apply elem_of_cons in Hin as [[= -> ->]|Hin].
    + by rewrite decide_True.
    + rewrite decide_False; [by apply IH|].
      intros ->. apply Hk'.
      apply (list_elem_of_fmap_2 fst) in Hin. exact Hin.
Qed.

Lemma own_set_keys_fresh o k v :
  own_get k o = None -> own_set k v o = o ++ [(k, v)].
Proof.
  induction o as [|[k' v'] o IH]; simpl; [done|].
  destruct (decide (k = k')); [done|]. intros H. by rewrite IH.
Qed.

Lemma own_set_keys_present o k v :
  is_Some (own_get k o) -> map fst (own_set k v o) = map fst o.
Proof.
  induction o as [|[k' v'] o IH]; simpl.
  - by intros [? ?].
  - destruct (decide (k = k')) as [->|Hne]; simpl; [done|].
    intros H. by rewrite IH.
Qed.

Lemma own_set_NoDup o k v :
  NoDup (map fst o) -> NoDup (map fst (own_set k v o)).
Proof.
  intros Hnd. destruct (own_get k o) as [v0|] eqn:Hget.
  - by rewrite own_set_keys_present.
  - rewrite own_set_keys_fresh by done. rewrite map_app. simpl.
    apply NoDup_app. split; [done|]. split.
    + intros x Hx Hx'. apply list_elem_of_singleton in Hx' as ->.
      by apply own_get_None in Hget.
    + apply NoDup_singleton.
Qed.

Lemma own_set_elem o k v k' v' :
  (k', v') ∈ own_set k v o -> (k', v') = (k, v) ∨ (k', v') ∈ o.
Proof.
  induction o as [|[k0 v0] o IH]; simpl.
  - intros ->%list_elem_of_singleton. by left.
  - destruct (decide (k = k0)) as [->|Hne].
    + intros [->|H]%elem_of_cons; [by left | right; by apply list_elem_of_further].
    + intros [->|H]%elem_of_cons; [right; apply list_elem_of_here|].
      destruct (IH H) as [?|?]; [by left | right; by apply list_elem_of_further].
Qed.

Lemma own_delete_elem o k k' v' : (k', v') ∈ own_delete k o -> (k', v') ∈ o ∧ k' ≠ k.
Proof.
  induction o as [|[k0 v0] o IH]; simpl; [by intros ?%elem_of_nil|].
  destruct (decide (k = k0)) as [->|Hne].
  - intros H. destruct (IH H). split; [by apply list_elem_of_further | done].
  - intros [[= -> ->]|H]%elem_of_cons.
    + split; [apply list_elem_of_here | done].
    + destruct (IH H). split; [by apply list_elem_of_further | done].
Qed.

Lemma own_delete_keys o k :
  map fst (own_delete k o) = filter (fun k' => k' ≠ k) (map fst o).
Proof.
  induction o as [|[k0 v0] o IH]; simpl; [done|].
  destruct (decide (k = k0)) as [->|Hne].
  - rewrite filter_cons_False by (simpl; tauto). done.
  - rewrite filter_cons_True by (simpl; congruence). simpl. by rewrite IH.
Qed.

Lemma own_delete_NoDup o k :
  NoDup (map fst o) -> NoDup (map fst (own_delete k o)).
Proof. intros H. rewrite own_delete_keys. by apply NoDup_filter. Qed.

Lemma own_delete_absent o k : own_get k o = None -> own_delete k o = o.
Proof.
  induction o as [|[k' v'] o IH]; simpl; [done|].
  destruct (decide (k = k')); [done|]. intros H. by rewrite IH.
Qed.

End own_props.

(* ===================================================================== *)
(** * Well-formed values *)
(* ===================================================================== *)


Lemma wf_JObj props :
  wf (JObj props) = true
  <-> NoDup (map fst props) ∧ Forall (fun p => wf (snd p) = true) props.
Proof.
  simpl. rewrite andb_true_iff, bool_decide_eq_true, forallb_forall, Forall_forall.
  split; intros [? H]; (split; [done|]); intros x Hx; apply H;
    by apply list_elem_of_In.
Qed.

Lemma wf_JArr items :
  wf (JArr items) = true <-> Forall (fun x => wf x = true) items.
Proof.
  simpl. rewrite forallb_forall, Forall_forall.
  split; intros H x Hx; apply H; by apply list_elem_of_In.
Qed.

Lemma wf_own_set props k v :
  wf (JObj props) = true -> wf v = true -> wf (JObj (own_set k v props)) = true.
Proof.
  rewrite !wf_JObj. intros [Hnd Hall] Hv. split; [by apply own_set_NoDup|].
  apply Forall_forall. intros [k' v'] Hin.
  destruct (own_set_elem _ _ _ _ _ Hin) as [[= -> ->]|Hin']; [done|].
  rewrite Forall_forall in Hall. by apply (Hall (k', v')).
Qed.

Lemma wf_own_delete props k :
  wf (JObj props) = true -> wf (JObj (own_delete k props)) = true.
Proof.
  rewrite !wf_JObj. intros [Hnd Hall]. split; [by apply own_delete_NoDup|].
  apply Forall_forall. intros [k' v'] Hin.
  destruct (own_delete_elem _ _ _ _ Hin) as [Hin' _].
  rewrite Forall_forall in Hall. by apply (Hall (k', v')).
Qed.

Lemma wf_own_get props k v :
  wf (JObj props) = true -> own_get k props = Some v -> wf v = true.
Proof.
  rewrite wf_JObj. intros [_ Hall] Hget%own_get_Some_elem.
  rewrite Forall_forall in Hall. by apply (Hall (k, v)).
Qed.

Lemma wf_role_object r : wf (role_object r) = true.
Proof.
  destruct r as [[?|] [?|] [?|] [?|] [?|] [?|]]; vm_compute; reflexivity.
Qed.

(* ===================================================================== *)
(** * The executable codec satisfies the laws *)
(* ===================================================================== *)

(** ** String literals *)

Lemma json_parse_chars_escape_char c fuel s :
  Json.parse_chars (S fuel) (Json.escape_char c ++ s)
  = match Json.parse_chars fuel s with
    | Some (str, rest) => Some (String c str, rest)
    | None => None
    end.
Proof. destruct c as [[] [] [] [] [] [] [] []]; reflexivity. Qed.

Lemma json_parse_chars_escape s fuel rest :
  String.length s < fuel ->
  Json.parse_chars fuel (Json.escape s ++ Json.dquote :: rest) = Some (s, rest).
Proof.
  revert fuel. induction s as [|c s IH]; intros [|fuel] Hfuel; simpl in Hfuel;
    try lia.
  - reflexivity.
  - simpl Json.escape. rewrite <- app_assoc, json_parse_chars_escape_char.
    rewrite IH by lia. reflexivity.
Qed.

Lemma json_escape_char_length c : 1 <= length (Json.escape_char c).
Proof. destruct c as [[] [] [] [] [] [] [] []]; vm_compute; lia. Qed.

Lemma json_escape_length s : String.length s <= length (Json.escape s).
Proof.
  induction s as [|c s IH]; simpl; [lia|].
  rewrite length_app. pose proof (json_escape_char_length c). lia.
Qed.

Lemma json_parse_string s rest :
  Json.parse_chars (length (Json.escape s ++ Json.dquote :: rest))
    (Json.escape s ++ Json.dquote :: rest) = Some (s, rest).
Proof.
  apply json_parse_chars_escape. rewrite length_app. simpl.
  pose proof (json_escape_length s). lia.
Qed.

(** ** Integer literals *)


Lemma json_parse_digits_print d rest :
  terminated rest -> Json.parse_digits (Json.print_uint d ++ rest) = (d, rest).
Proof.
  intros Hrest. induction d; simpl; try (rewrite IHd; reflexivity).
  destruct rest as [|c rest]; [reflexivity|]. simpl in *. by rewrite Hrest.
Qed.

Lemma json_well_formed_to_uint p :
  Json.well_formed_digits (Pos.to_uint p) = true.
Proof.
  pose proof (DecimalPos.Unsigned.to_uint_nonnil p) as Hnil.
  assert (Hnorm : unorm (Pos.to_uint p) = Pos.to_uint p).
  { pose proof (DecimalPos.Unsigned.to_of (Pos.to_uint p)) as H.
    rewrite DecimalPos.Unsigned.of_to in H. simpl in H. congruence. }
  destruct (Pos.to_uint p) as [|d| | | | | | | | |] eqn:E; try reflexivity; [done|].
  destruct d; try reflexivity; exfalso.
  all: rewrite unorm_D0 in Hnorm;
    match type of Hnorm with unorm ?u = _ =>
      assert (Hne : u <> Nil) by discriminate;
      pose proof (nb_digits_unorm u Hne) as Hlen
    end;
    rewrite Hnorm in Hlen; simpl in Hlen; lia.
Qed.

Lemma json_print_uint_head d :
  d <> Nil ->
  exists c tl, Json.print_uint d = c :: tl
               /\ Json.number_start c = true /\ (nat_of_ascii c =? 45)%nat = false.
Proof. destruct d; [done | intros _; eexists _, _; repeat split ..]. Qed.

Lemma json_parse_number_print z rest :
  terminated rest ->
  Json.parse_number (Json.print_number z ++ rest) = Some (z, rest).
Proof.
  intros Hrest. unfold Json.print_number.
  pose proof (DecimalZ.of_to z) as Hz.
  assert (Hwf : match Z.to_int z with
                | Pos d | Neg d => Json.well_formed_digits d = true
                end).
  { destruct z; simpl; [reflexivity | apply json_well_formed_to_uint ..]. }
  destruct (Z.to_int z) as [d|d];
    pose proof (json_parse_digits_print d rest Hrest) as Hd.
  - destruct (json_print_uint_head d) as (c & tl & Hp & _ & Hc).
    { by intros ->. }
    rewrite Hp in *. simpl in Hd |- *. unfold Json.parse_number.
    rewrite Hc, Hd, Hwf. do 2 f_equal. exact Hz.
  - simpl. rewrite Hd, Hwf. do 2 f_equal. exact Hz.
Qed.

Lemma json_print_number_head z :
  exists c tl, Json.print_number z = c :: tl /\ Json.number_start c = true.
Proof.
  unfold Json.print_number.
  assert (Hnil : match Z.to_int z with Pos d | Neg d => d <> Nil end).
  { destruct z; simpl; [done | apply DecimalPos.Unsigned.to_uint_nonnil ..]. }
  destruct (Z.to_int z) as [d|d].
  - destruct (json_print_uint_head d Hnil) as (c & tl & Hp & Hs & _). eauto.
  - eexists _, _. split; reflexivity.
Qed.

(** ** Layout *)

Lemma json_skip_ws_break n s :
  Json.skip_ws (Json.break n ++ s) = Json.skip_ws s.
Proof.
  unfold Json.break. simpl. induction n as [|n IH]; simpl; [done | exact IH].
Qed.

Lemma json_skip_ws_solid c s :
  Json.is_ws c = false -> Json.skip_ws (c :: s) = c :: s.
Proof. intros H. simpl. by rewrite H. Qed.


Lemma json_number_start_value_start c :
  Json.number_start c = true -> value_start c.
Proof.
  destruct c as [[] [] [] [] [] [] [] []]; intros H;
    try (vm_compute in H; discriminate H); vm_compute; auto.
Qed.

Lemma json_print_head indent v :
  exists c tl, Json.print indent v = c :: tl /\ value_start c.
Proof.
  destruct v as [|[]|n|s|[|x xs]|[|p ps]];
    try (eexists _, _; split; [reflexivity | vm_compute; auto]).
  destruct (json_print_number_head n) as (c & tl & Hp & Hs).
  exists c, tl. split; [exact Hp | by apply json_number_start_value_start].
Qed.

(** ** One step of the parser, by the first character *)

Lemma json_parse_value_number fuel c s :
  Json.number_start c = true ->
  Json.parse_value (S fuel) (c :: s)
  = match Json.parse_number (c :: s) with
    | Some (z, rest) => Some (JNum z, rest)
    | None => None
    end.
Proof.
  destruct c as [[] [] [] [] [] [] [] []]; intros H;
    try (vm_compute in H; discriminate H); reflexivity.
Qed.

Lemma json_parse_value_string fuel s :
  Json.parse_value (S fuel) (Json.dquote :: s)
  = match Json.parse_chars (length s) s with
    | Some (str, rest) => Some (JStr str, rest)
    | None => None
    end.
Proof. reflexivity. Qed.

Lemma json_parse_value_array fuel s :
  Json.parse_value (S fuel) ("["%char :: s)
  = match Json.skip_ws s with
    | c1 :: s1 =>
        if (nat_of_ascii c1 =? 93)%nat then Some (JArr [], s1)
        else match Json.parse_items fuel s with
             | Some (vs, rest) => Some (JArr vs, rest)
             | None => None
             end
    | [] => None
    end.
Proof. reflexivity. Qed.

Lemma json_parse_value_object fuel s :
  Json.parse_value (S fuel) ("{"%char :: s)
  = match Json.skip_ws s with
    | c1 :: s1 =>
        if (nat_of_ascii c1 =? 125)%nat then Some (JObj [], s1)
        else match Json.parse_members fuel [] s with
             | Some (ms, rest) => Some (JObj ms, rest)
             | None => None
             end
    | [] => None
    end.
Proof. reflexivity. Qed.

Lemma json_parse_items_step fuel s :
  Json.parse_items (S fuel) s
  = match Json.parse_value fuel s with
    | Some (v, rest) =>
        match Json.skip_ws rest with
        | c :: s' =>
            if (nat_of_ascii c =? 93)%nat then Some ([v], s')
            else if (nat_of_ascii c =? 44)%nat then
              match Json.parse_items fuel s' with
              | Some (vs, rest') => Some (v :: vs, rest')
              | None => None
              end
            else None
        | [] => None
        end
    | None => None
    end.
Proof. reflexivity. Qed.

Lemma json_parse_members_step fuel acc s :
  Json.parse_members (S fuel) acc (Json.dquote :: s)
  = match Json.parse_chars (length s) s with
    | Some (k, s2) =>
        match Json.skip_ws s2 with
        | colon :: s3 =>
            if (nat_of_ascii colon =? 58)%nat then
              match Json.parse_value fuel s3 with
              | Some (v, rest) =>
                  match Json.skip_ws rest with
                  | c :: s' =>
                      if (nat_of_ascii c =? 125)%nat
                      then Some (own_set k v acc, s')
                      else if (nat_of_ascii c =? 44)%nat
                      then Json.parse_members fuel (own_set k v acc) s'
                      else None
                  | [] => None
                  end
              | None => None
              end
            else None
        | [] => None
        end
    | None => None
    end.
Proof. reflexivity. Qed.

(** ** Reading back what was printed *)

Lemma json_parse_value_skip fuel s1 s2 :
  Json.skip_ws s1 = Json.skip_ws s2 ->
  Json.parse_value fuel s1 = Json.parse_value fuel s2.
Proof. intros H. destruct fuel; [done|]. simpl. by rewrite H. Qed.

Lemma json_parse_members_skip fuel acc s1 s2 :
  Json.skip_ws s1 = Json.skip_ws s2 ->
  Json.parse_members fuel acc s1 = Json.parse_members fuel acc s2.
Proof. intros H. destruct fuel; [done|]. simpl. by rewrite H. Qed.

Lemma json_skip_ws_print indent v rest :
  Json.skip_ws (Json.print indent v ++ rest) = Json.print indent v ++ rest.
Proof.
  destruct (json_print_head indent v) as (c & tl & -> & Hws & _).
  by apply json_skip_ws_solid.
Qed.



Lemma json_print_seq_cons {A} nl (f : A -> list ascii) x l closing :
  Json.print_seq nl f (x :: l) ++ closing
  = nl ++ f x ++ after_element nl f l closing.
Proof. unfold after_element. simpl. by rewrite <- !app_assoc. Qed.

Lemma json_after_element_terminated {A} indent (f : A -> list ascii) l outer
    close rest :
  terminated (after_element (Json.break indent) f l
                (Json.break outer ++ close :: rest)).
Proof. destruct l; reflexivity. Qed.

Lemma json_parse_items_print indent outer xs rest fuel :
  xs <> [] ->
  Forall reads_back xs ->
  list_sum (map (fun x => S (Json.weight x)) xs) <= fuel ->
  Json.parse_items fuel
    (Json.print_seq (Json.break indent) (Json.print indent) xs
     ++ Json.break outer ++ "]"%char :: rest)
  = Some (xs, rest).
Proof.
  revert fuel. induction xs as [|x xs IH]; [done|]. intros fuel _ Hall Hfuel.
  apply Forall_cons in Hall as [Hx Hall]. simpl in Hfuel.
  destruct fuel as [|fuel]; [lia|].
  rewrite json_parse_items_step, json_print_seq_cons.
  rewrite (json_parse_value_skip _ _ _ (json_skip_ws_break _ _)).
  rewrite Hx; [|lia|apply json_after_element_terminated].
  destruct xs as [|y ys]; unfold after_element.
  - cbn [app]. rewrite json_skip_ws_break. reflexivity.
  - cbn [app]. rewrite json_skip_ws_solid by reflexivity.
    cbn [nat_of_ascii]. change (nat_of_ascii ","%char =? 93)%nat with false.
    change (nat_of_ascii ","%char =? 44)%nat with true. cbv iota.
    rewrite IH; [done | done | done | simpl in *; lia].
Qed.


Lemma json_parse_members_print indent outer ps rest fuel acc :
  ps <> [] ->
  Forall (fun p => reads_back (snd p)) ps ->
  list_sum (map (fun p => S (Json.weight (snd p))) ps) <= fuel ->
  Json.parse_members fuel acc
    (Json.print_seq (Json.break indent) (print_member indent) ps
     ++ Json.break outer ++ "}"%char :: rest)
  = Some (fold_left (fun a p => own_set (fst p) (snd p) a) ps acc, rest).
Proof.
  revert fuel acc. induction ps as [|[k v] ps IH]; [done|].
  intros fuel acc _ Hall Hfuel.
  apply Forall_cons in Hall as [Hv Hall]. simpl in Hfuel, Hv.
  destruct fuel as [|fuel]; [lia|].
  rewrite json_print_seq_cons.
  rewrite (json_parse_members_skip _ _ _ _ (json_skip_ws_break _ _)).
  unfold print_member at 1, Json.print_string. cbn [fst snd].
  rewrite <- !app_assoc. cbn [app].
  rewrite json_parse_members_step.
  rewrite <- !app_assoc. cbn [app].
  rewrite json_parse_string.
  rewrite json_skip_ws_solid by reflexivity.
  change (nat_of_ascii ":"%char =? 58)%nat with true. cbv iota.
  rewrite (json_parse_value_skip _ (" "%char :: _) (Json.print indent v ++
    after_element (Json.break indent) (print_member indent) ps
      (Json.break outer ++ "}"%char :: rest))).
  2:{ reflexivity. }
  rewrite Hv; [|lia|apply json_after_element_terminated].
  destruct ps as [|q qs]; unfold after_element.
  - cbn [app]. rewrite json_skip_ws_break. reflexivity.
  - cbn [app]. rewrite json_skip_ws_solid by reflexivity.
    change (nat_of_ascii ","%char =? 125)%nat with false.
    change (nat_of_ascii ","%char =? 44)%nat with true. cbv iota.
    rewrite IH; [done | done | done | simpl in *; lia].
Qed.

Lemma fold_own_set_fresh {A} (ps acc : list (string * A)) :
  NoDup (map fst (acc ++ ps)) ->
  fold_left (fun a p => own_set (fst p) (snd p) a) ps acc = acc ++ ps.
Proof.
  revert acc. induction ps as [|[k v] ps IH]; intros acc Hnd; simpl.
  - by rewrite app_nil_r.
  - rewrite own_set_keys_fresh.
    + rewrite IH; rewrite <- app_assoc; done.
    + apply own_get_None. rewrite map_app in Hnd.
      apply NoDup_app in Hnd as (_ & Hdisj & _). intros Hin.
      apply (Hdisj k Hin). simpl. apply list_elem_of_here.
Qed.

Lemma json_reads_back v : wf v = true -> reads_back v.
Proof.
  induction v as [|b|n|s|items IH|props IH] using jsval_nested_ind;
    intros Hwf indent fuel rest Hfuel Hrest;
    (destruct fuel as [|fuel]; [simpl in Hfuel; lia|]).
  - reflexivity.
  - destruct b; reflexivity.
  - destruct (json_print_number_head n) as (c & tl & Hp & Hs).
    simpl Json.print. pose proof (json_parse_number_print n rest Hrest) as Hn.
    rewrite Hp in *. cbn [app] in *.
    by rewrite json_parse_value_number, Hn.
  - simpl Json.print. unfold Json.print_string. cbn [app].
    rewrite <- app_assoc. cbn [app].
    by rewrite json_parse_value_string, json_parse_string.
  - apply wf_JArr in Hwf.
    assert (Hall : Forall reads_back items).
    { apply Forall_forall. intros x Hx. rewrite Forall_forall in IH, Hwf.
      by apply IH; [|apply Hwf]. }
    destruct items as [|x xs]; [reflexivity|].
    change (Json.print indent (JArr (x :: xs)))
      with ("["%char :: Json.print_seq (Json.break (2 + indent))
              (Json.print (2 + indent)) (x :: xs)
            ++ Json.break indent ++ ["]"%char]).
    cbn [app]. rewrite <- !app_assoc. cbn [app].
    rewrite json_parse_value_array.
    rewrite json_parse_items_print; [|done|done|simpl in *; lia].
    rewrite json_print_seq_cons, json_skip_ws_break, json_skip_ws_print.
    destruct (json_print_head (2 + indent) x) as (c & tl & Hp & _ & Hc & _).
    rewrite Hp. cbn [app]. rewrite Hc. reflexivity.
  - apply wf_JObj in Hwf as [Hnd Hwf].
    assert (Hall : Forall (fun p => reads_back (snd p)) props).
    { apply Forall_forall. intros x Hx. rewrite Forall_forall in IH, Hwf.
      by apply IH; [|apply Hwf]. }
    destruct props as [|p ps]; [reflexivity|].
    change (Json.print indent (JObj (p :: ps)))
      with ("{"%char :: Json.print_seq (Json.break (2 + indent))
              (print_member (2 + indent)) (p :: ps)
            ++ Json.break indent ++ ["}"%char]).
    cbn [app]. rewrite <- !app_assoc. cbn [app].
    rewrite json_parse_value_object.
    rewrite json_parse_members_print; [|done|done|simpl in *; lia].
    rewrite fold_own_set_fresh by done. cbn [app].
    rewrite json_print_seq_cons, json_skip_ws_break.
    unfold print_member at 1, Json.print_string. cbn [app].
    rewrite json_skip_ws_solid by reflexivity.
    reflexivity.
Qed.

(** ** The fuel [parse] supplies is enough *)

Lemma json_print_seq_weight {A} nl (f : A -> list ascii) (g : A -> nat) l :
  1 <= length nl ->
  Forall (fun x => g x <= length (f x)) l ->
  list_sum (map (fun x => S (g x)) l) <= length (Json.print_seq nl f l).
Proof.
  intros Hnl. induction 1 as [|x l Hx Hl IH]; simpl; [lia|].
  rewrite !length_app. destruct l; simpl in *; lia.
Qed.

Lemma json_weight_le_print v indent :
  Json.weight v <= length (Json.print indent v).
Proof.
  revert indent.
  induction v as [|b|n|s|items IH|props IH] using jsval_nested_ind;
    intros indent.
  - simpl. lia.
  - destruct b; simpl; lia.
  - destruct (json_print_number_head n) as (c & tl & Hp & _).
    simpl. rewrite Hp. simpl. lia.
  - simpl. lia.
  - destruct items as [|x xs]; [simpl; lia|].
    change (Json.print indent (JArr (x :: xs)))
      with ("["%char :: Json.print_seq (Json.break (2 + indent))
              (Json.print (2 + indent)) (x :: xs)
            ++ Json.break indent ++ ["]"%char]).
    cbn [Json.weight length]. rewrite !length_app.
    pose proof (json_print_seq_weight (Json.break (2 + indent))
                  (Json.print (2 + indent)) Json.weight (x :: xs)) as H.
    cbn [length] in *. apply Nat.le_trans with (S (length (Json.print_seq (Json.break (2 + indent)) (Json.print (2 + indent)) (x :: xs)))); [|lia].
    apply le_n_S, H; [simpl; lia|].
    apply Forall_forall. intros y Hy. rewrite Forall_forall in IH. by apply IH.
  - destruct props as [|p ps]; [simpl; lia|].
    change (Json.print indent (JObj (p :: ps)))
      with ("{"%char :: Json.print_seq (Json.break (2 + indent))
              (print_member (2 + indent)) (p :: ps)
            ++ Json.break indent ++ ["}"%char]).
    cbn [Json.weight length]. rewrite !length_app.
    pose proof (json_print_seq_weight (Json.break (2 + indent))
                  (print_member (2 + indent))
                  (fun p => Json.weight (snd p)) (p :: ps)) as H.
    apply Nat.le_trans with (S (length (Json.print_seq (Json.break (2 + indent)) (print_member (2 + indent)) (p :: ps)))); [|lia].
    apply le_n_S, H; [simpl; lia|].
    apply Forall_forall. intros y Hy. rewrite Forall_forall in IH.
    unfold print_member. rewrite length_app. simpl.
    specialize (IH y Hy (2 + indent)). simpl in IH. lia.
Qed.

Lemma json_parse_stringify v :
  wf v = true -> Json.parse (Json.stringify v) = Some v.
Proof.
  intros Hwf. unfold Json.parse, Json.stringify.
  rewrite list_ascii_of_string_of_list_ascii.
  pose proof (json_reads_back v Hwf 0 (S (length (Json.print 0 v))) []) as H.
  rewrite app_nil_r in H. rewrite H; [done| |done].
  pose proof (json_weight_le_print v 0). lia.
Qed.

(** ** The parser yields well-formed values *)

Lemma json_parse_wf_fuel fuel :
  (forall s v rest, Json.parse_value fuel s = Some (v, rest) -> wf v = true)
  /\ (forall s vs rest,
        Json.parse_items fuel s = Some (vs, rest) ->
        Forall (fun x => wf x = true) vs)
  /\ (forall acc s ms rest,
        wf (JObj acc) = true ->
        Json.parse_members fuel acc s = Some (ms, rest) ->
        wf (JObj ms) = true).
Proof.
  induction fuel as [|fuel (IHv & IHi & IHm)]; [by repeat split|].
  split; [|split].
  - intros s v rest H. simpl in H.
    repeat case_match; simplify_eq; try reflexivity.
    + apply wf_JArr. eauto.
    + eapply IHm; [|eassumption]. reflexivity.
  - intros s vs rest H. rewrite json_parse_items_step in H.
    repeat case_match; simplify_eq.
    + apply Forall_cons. split; [eauto | apply Forall_nil; done].
    + apply Forall_cons. split; eauto.
  - intros acc s ms rest Hacc H. simpl in H.
    repeat case_match; simplify_eq.
    + apply wf_own_set; eauto.
    + eapply IHm; [|eassumption]. apply wf_own_set; eauto.
Qed.

Lemma json_parse_wf s v : Json.parse s = Some v -> wf v = true.
Proof.
  unfold Json.parse. intros H. repeat case_match; simplify_eq.
  eapply json_parse_wf_fuel; eassumption.
Qed.

(** The laws hold of the executable codec. *)
Lemma json_codec_laws : JsonLaws json_codec.
Proof.
  split.
  - exact json_parse_stringify.
  - exact json_parse_wf.
  - reflexivity.
Qed.

Lemma roles_is_no_builtin :
  bool_decide ("roles" ∈ object_prototype_keys) = false.
Proof. by vm_compute. Qed.

(* ===================================================================== *)
(** * [FileDB] over [MemFs] *)
(* ===================================================================== *)

Section FileDB_MemFs.

Context {codec : JsonCodec} (laws : JsonLaws codec).
Variable dbPath : string.

Implicit Type p : process (gmap string string).

Lemma process_eta {St} (q : process St) :
  {| disk := disk q; console := console q |} = q.
Proof. by destruct q. Qed.

Lemma wf_emptyDb : wf emptyDb = true.
Proof. reflexivity. Qed.

Lemma wf_load p : wf (load dbPath p) = true.
Proof.
  unfold load. destruct (JSON_parse (blob dbPath p)) eqn:E; [|done].
  eapply parse_wf; eassumption.
Qed.

Lemma blob_put db p : blob dbPath (put dbPath db p) = JSON_stringify db.
Proof. unfold blob, put. simpl. by rewrite lookup_insert_eq. Qed.

Lemma load_put db p : wf db = true -> load dbPath (put dbPath db p) = db.
Proof.
  intros Hwf. unfold load. rewrite blob_put.
  by rewrite (parse_stringify _ laws).
Qed.

Lemma settled_put db p :
  wf db = true -> settled dbPath (put dbPath db p) = put dbPath db p.
Proof.
  intros Hwf. unfold settled. rewrite blob_put.
  by rewrite (parse_stringify _ laws).
Qed.

Lemma load_settled p : load dbPath (settled dbPath p) = load dbPath p.
Proof.
  unfold settled, load at 2.
  destruct (JSON_parse (blob dbPath p)) eqn:E.
  - unfold load. by rewrite E.
  - by rewrite load_put.
Qed.

Lemma settled_idem p : settled dbPath (settled dbPath p) = settled dbPath p.
Proof.
  unfold settled at 2 3. destruct (JSON_parse (blob dbPath p)) eqn:E.
  - unfold settled. by rewrite E.
  - by rewrite settled_put.
Qed.

(** [readDb] returns [load] and leaves the store [settled]. *)
Lemma readDb_MemFs p :
  readDb dbPath p = (Ok (load dbPath p), settled dbPath p).
Proof.
  unfold readDb, load, settled, bind, on_disk. simpl.
  fold (blob dbPath p).
  destruct (JSON_parse (blob dbPath p)) eqn:E.
  - unfold ret. by rewrite process_eta.
  - unfold ret, put. simpl. by rewrite <- app_assoc.
Qed.

Lemma writeDb_MemFs db p : writeDb dbPath db p = (Ok tt, put dbPath db p).
Proof. reflexivity. Qed.

(** ** The four operations on a document that inhabits the schema *)

Ltac by_schema p Hs :=
  rewrite readDb_MemFs; cbv beta iota;
  destruct (load dbPath p) as [| | | | |d]; try discriminate Hs;
  unfold get_roles, ret, roles_in, roles_object, with_roles, js_get;
  rewrite ?roles_is_no_builtin;
  simpl in Hs;
  destruct (own_get "roles" d) as [[| | | | |r]|]; try discriminate Hs.

Lemma listRoles_MemFs p :
  schema (load dbPath p) = true ->
  listRoles dbPath p
  = (Ok (map snd (roles_in (load dbPath p))), settled dbPath p).
Proof.
  intros Hs. unfold listRoles, bind. by_schema p Hs; reflexivity.
Qed.

Lemma getRole_MemFs roleId p :
  schema (load dbPath p) = true ->
  getRole dbPath roleId p
  = (Ok match roles_object (load dbPath p) with
        | Some r =>
            let found := js_get r roleId in
            if nullish found then Json JNull else found
        | None => Json JNull
        end,
     settled dbPath p).
Proof.
  intros Hs. unfold getRole, bind. by_schema p Hs; reflexivity.
Qed.

Lemma upsertRole_MemFs roleData p :
  schema (load dbPath p) = true ->
  upsertRole dbPath roleData p
  = (Ok Undefined,
     put dbPath
       (with_roles
          (js_assign (roles_in (load dbPath p))
             (to_property_key (Role.id roleData)) (role_object roleData))
          (load dbPath p))
       (settled dbPath p)).
Proof.
  intros Hs. unfold upsertRole, bind. by_schema p Hs; reflexivity.
Qed.

Lemma deleteRole_MemFs roleId p :
  schema (load dbPath p) = true ->
  deleteRole dbPath roleId p
  = match roles_object (load dbPath p) with
    | Some r =>
        if truthy (js_get r roleId)
        then (Ok true,
              put dbPath (with_roles (own_delete roleId r) (load dbPath p))
                (settled dbPath p))
        else (Ok false, settled dbPath p)
    | None => (Ok false, settled dbPath p)
    end.
Proof.
  intros Hs. unfold deleteRole, bind. by_schema p Hs; try reflexivity.
  fold (js_get r roleId). by destruct (truthy (js_get r roleId)).
Qed.

(** ** Replacing the [roles] mapping *)

Lemma schema_with_roles r db :
  schema db = true -> schema (with_roles r db) = true.
Proof.
  destruct db as [| | | | |d]; try discriminate. intros _. simpl.
  by rewrite own_get_set_eq.
Qed.

Lemma roles_object_with_roles r db :
  schema db = true -> roles_object (with_roles r db) = Some r.
Proof.
  destruct db as [| | | | |d]; try discriminate. intros _. simpl.
  by rewrite own_get_set_eq.
Qed.

Lemma roles_in_with_roles r db :
  schema db = true -> roles_in (with_roles r db) = r.
Proof. intros H. unfold roles_in. by rewrite roles_object_with_roles. Qed.

Lemma wf_with_roles r db :
  wf db = true -> wf (JObj r) = true -> wf (with_roles r db) = true.
Proof.
  destruct db as [| | | | |d]; try done. intros. by apply wf_own_set.
Qed.

Lemma wf_roles_in db : wf db = true -> wf (JObj (roles_in db)) = true.
Proof.
  unfold roles_in, roles_object. destruct db as [| | | | |d]; try done.
  destruct (own_get "roles" d) as [[| | | | |r]|] eqn:E; try done.
  intros H. eapply wf_own_get; eassumption.
Qed.

Lemma wf_js_assign r k v :
  wf (JObj r) = true -> wf v = true -> wf (JObj (js_assign r k v)) = true.
Proof.
  intros Hr Hv. unfold js_assign.
  destruct (own_get k r); [by apply wf_own_set|].
  destruct (bool_decide (k = "__proto__")); [done | by apply wf_own_set].
Qed.

(** ** Entries of the mapping after an assignment or a deletion *)

Lemma js_assign_elem o k v k' v' :
  (k', v') ∈ js_assign o k v -> (k', v') = (k, v) ∨ (k', v') ∈ o.
Proof.
  unfold js_assign. destruct (own_get k o); [apply own_set_elem|].
  destruct (bool_decide (k = "__proto__")); [by right | apply own_set_elem].
Qed.

Lemma js_assign_get o k v :
  k ≠ "__proto__" -> own_get k (js_assign o k v) = Some v.
Proof.
  intros Hk. unfold js_assign. destruct (own_get k o).
  - apply own_get_set_eq.
  - rewrite bool_decide_eq_false_2 by done. apply own_get_set_eq.
Qed.

Lemma js_assign_proto o v :
  own_get "__proto__" o = None -> js_assign o "__proto__" v = o.
Proof. intros H. unfold js_assign. by rewrite H. Qed.

Lemma id_is_role_object r k : Role.id r = Some k -> id_is k (role_object r).
Proof.
  intros H. unfold id_is, role_object, js_get. rewrite H. reflexivity.
Qed.

Lemma keyed_by_id_upsert db r k :
  keyed_by_id db -> Role.id r = Some k ->
  keyed_by_id (with_roles (js_assign (roles_in db) k (role_object r)) db).
Proof.
  intros [Hs Hall] Hid. split; [by apply schema_with_roles|].
  intros k' v'. rewrite roles_in_with_roles by done.
  intros [[= -> ->]|Hin]%js_assign_elem; [by apply id_is_role_object | eauto].
Qed.

Lemma keyed_by_id_delete db k :
  keyed_by_id db ->
  keyed_by_id (with_roles (own_delete k (roles_in db)) db).
Proof.
  intros [Hs Hall]. split; [by apply schema_with_roles|].
  intros k' v'. rewrite roles_in_with_roles by done.
  intros [Hin _]%own_delete_elem. eauto.
Qed.

Lemma keyed_by_id_emptyDb : keyed_by_id emptyDb.
Proof. split; [done|]. intros k v Hin. by apply elem_of_nil in Hin. Qed.

Lemma load_empty_store : load dbPath empty_store = JObj [].
Proof.
  unfold load, blob. simpl. rewrite lookup_empty.
  by rewrite (parse_empty_object _ laws).
Qed.

(** ** [upsertRole] followed by a read *)

(** The document after [upsertRole]. *)
Lemma load_after_upsertRole roleData p :
  schema (load dbPath p) = true ->
  load dbPath (snd (upsertRole dbPath roleData p))
  = with_roles
      (js_assign (roles_in (load dbPath p))
         (to_property_key (Role.id roleData)) (role_object roleData))
      (load dbPath p).
Proof.
  intros Hs. rewrite upsertRole_MemFs by done. simpl.
  apply load_put, wf_with_roles; [apply wf_load|].
  apply wf_js_assign; [apply wf_roles_in, wf_load | apply wf_role_object].
Qed.

Lemma schema_after_upsertRole roleData p :
  schema (load dbPath p) = true ->
  schema (load dbPath (snd (upsertRole dbPath roleData p))) = true.
Proof.
  intros Hs. rewrite load_after_upsertRole by done.
  by apply schema_with_roles.
Qed.

Lemma roles_after_upsertRole roleData p :
  schema (load dbPath p) = true ->
  roles_in (load dbPath (snd (upsertRole dbPath roleData p)))
  = js_assign (roles_in (load dbPath p))
      (to_property_key (Role.id roleData)) (role_object roleData).
Proof.
  intros Hs. rewrite load_after_upsertRole by done.
  by apply roles_in_with_roles.
Qed.

(** [getRole] right after [upsertRole], in terms of the new mapping. *)
Lemma getRole_after_upsertRole roleData roleId p :
  schema (load dbPath p) = true ->
  fst (getRole dbPath roleId (snd (upsertRole dbPath roleData p)))
  = Ok (let found :=
          js_get (js_assign (roles_in (load dbPath p))
                    (to_property_key (Role.id roleData))
                    (role_object roleData)) roleId in
        if nullish found then Json JNull else found).
Proof.
  intros Hs. rewrite getRole_MemFs by by apply schema_after_upsertRole.
  simpl. rewrite load_after_upsertRole by done.
  by rewrite roles_object_with_roles.
Qed.

(** Upsert then get, for every key but ["__proto__"]: the record comes
    back. *)
Lemma upsertRole_then_getRole roleData p :
  schema (load dbPath p) = true ->
  to_property_key (Role.id roleData) ≠ "__proto__" ->
  fst (getRole dbPath (to_property_key (Role.id roleData))
         (snd (upsertRole dbPath roleData p)))
  = Ok (Json (role_object roleData)).
Proof.
  intros Hs Hk. rewrite getRole_after_upsertRole by done.
  unfold js_get. by rewrite js_assign_get.
Qed.

End FileDB_MemFs.

(* ===================================================================== *)
(** * [FileDB] over any [Fs] *)
(* ===================================================================== *)

Section FileDB_any_Fs.

Context {codec : JsonCodec} {St : Type} {fs : Fs St}.
Variable dbPath : string.

Implicit Type p : process St.

(** [readDb] when the text parses: the document, and nothing is written. *)
Lemma readDb_parsed p content d1 db :
  read dbPath (disk p) = (Ok content, d1) ->
  JSON_parse content = Some db ->
  readDb dbPath p = (Ok db, {| disk := d1; console := console p |}).
Proof.
  intros Hread Hparse. unfold readDb, bind, on_disk.
  by rewrite Hread, Hparse.
Qed.

(** C1.  When the text read from the blob store does not parse, [readDb]
    logs the failure on the console, calls [write] with the empty schema
    [{ roles: {} }] and resolves to that schema: the [SyntaxError] of
    [JSON.parse] does not reach the caller.  (If [write] itself throws, it
    is the error of [write] that the caller sees.) *)
Theorem readDb_decode_failure p content d1 :
  read dbPath (disk p) = (Ok content, d1) ->
  JSON_parse content = None ->
  exists w d2,
    write dbPath (JSON_stringify (JObj [("roles", JObj [])])) d1 = (w, d2)
    /\ console (snd (readDb dbPath p))
       = console p
         ++ [console_error
               ("Failed to parse database file " +:+ dbPath
                +:+ ": SyntaxError");
             console_warn
               ("Resetting database file " +:+ dbPath
                +:+ " to an empty state due to parse failure.")]
    /\ disk (snd (readDb dbPath p)) = d2
    /\ fst (readDb dbPath p)
       = match w with
         | Ok _ => Ok (JObj [("roles", JObj [])])
         | Throw e => Throw e
         | OutsideSchema => OutsideSchema
         end.
Proof.
  intros Hread Hparse.
  destruct (write dbPath (JSON_stringify (JObj [("roles", JObj [])])) d1)
    as [w d2] eqn:Hwrite.
  exists w, d2. split; [done|].
  unfold readDb, bind, on_disk, log, writeDb, emptyDb, on_disk.
  rewrite Hread, Hparse. simpl. rewrite Hwrite.
  destruct w; simpl; by rewrite <- app_assoc.
Qed.

Lemma upsertRole_result roleData p v :
  fst (upsertRole dbPath roleData p) = Ok v -> v = Undefined.
Proof.
  unfold upsertRole, bind, writeDb, on_disk, ret, throw, outside_schema.
  repeat case_match; simpl; intros; simplify_eq; reflexivity.
Qed.

(** C2.  [upsertRole] never resolves to the id of the record: the function
    has no [return], so whenever it resolves, it resolves to
    [undefined]. *)
Theorem upsertRole_does_not_return_id roleData p k :
  Role.id roleData = Some k ->
  fst (upsertRole dbPath roleData p) ≠ Ok (Json (JStr k))
  /\ forall v, fst (upsertRole dbPath roleData p) = Ok v -> v = Undefined.
Proof.
  intros _. split; [|apply upsertRole_result].
  intros H. by apply upsertRole_result in H.
Qed.

(** [deleteRole] on a document whose [roles] object has no property, own
    or inherited, under [roleId]: [false], and [write] is not called. *)
Lemma deleteRole_not_found p content d1 d r roleId :
  read dbPath (disk p) = (Ok content, d1) ->
  JSON_parse content = Some (JObj d) ->
  own_get "roles" d = Some (JObj r) ->
  own_get roleId r = None ->
  roleId ∉ object_prototype_keys ->
  deleteRole dbPath roleId p
  = (Ok false, {| disk := d1; console := console p |}).
Proof.
  intros Hread Hparse Hroles Hown Hproto. unfold deleteRole, bind.
  rewrite (readDb_parsed _ _ _ _ Hread Hparse). cbv beta iota.
  unfold get_roles, ret, js_get. rewrite Hroles, Hown.
  by rewrite bool_decide_eq_false_2.
Qed.

(** [deleteRole] on a document without a [roles] object: [false], and
    [write] is not called. *)
Lemma deleteRole_no_roles p content d1 d roleId :
  read dbPath (disk p) = (Ok content, d1) ->
  JSON_parse content = Some (JObj d) ->
  own_get "roles" d = None ∨ own_get "roles" d = Some JNull ->
  deleteRole dbPath roleId p
  = (Ok false, {| disk := d1; console := console p |}).
Proof.
  intros Hread Hparse Hroles. unfold deleteRole, bind.
  rewrite (readDb_parsed _ _ _ _ Hread Hparse). cbv beta iota.
  unfold get_roles, ret, js_get.
  destruct Hroles as [-> | ->]; [by rewrite roles_is_no_builtin | done].
Qed.

(** [deleteRole] on an entry that is an object: the entry is removed, the
    document is written, the result is [true]. *)
Lemma deleteRole_found p content d1 d r roleId props :
  read dbPath (disk p) = (Ok content, d1) ->
  JSON_parse content = Some (JObj d) ->
  own_get "roles" d = Some (JObj r) ->
  own_get roleId r = Some (JObj props) ->
  deleteRole dbPath roleId p
  = let (w, d2) :=
      write dbPath
        (JSON_stringify (JObj (own_set "roles" (JObj (own_delete roleId r)) d)))
        d1 in
    (match w with
     | Ok _ => Ok true
     | Throw e => Throw e
     | OutsideSchema => OutsideSchema
     end, {| disk := d2; console := console p |}).
Proof.
  intros Hread Hparse Hroles Hown. unfold deleteRole, bind.
  rewrite (readDb_parsed _ _ _ _ Hread Hparse). cbv beta iota.
  unfold get_roles, ret, js_get, writeDb, on_disk. rewrite Hroles, Hown.
  simpl. by destruct (write _ _ _) as [[] ?].
Qed.

(** C6.  [deleteRole] with a [roleId] that names a member of
    [Object.prototype], on a document whose [roles] object has no entry
    under it: the test [!db.roles[roleId]] sees the inherited member, so
    the document is written and the result is [true]. *)
Theorem deleteRole_inherited_member p content d1 d r roleId :
  read dbPath (disk p) = (Ok content, d1) ->
  JSON_parse content = Some (JObj d) ->
  own_get "roles" d = Some (JObj r) ->
  own_get roleId r = None ->
  roleId ∈ object_prototype_keys ->
  deleteRole dbPath roleId p
  = let (w, d2) :=
      write dbPath (JSON_stringify (JObj (own_set "roles" (JObj r) d))) d1 in
    (match w with
     | Ok _ => Ok true
     | Throw e => Throw e
     | OutsideSchema => OutsideSchema
     end, {| disk := d2; console := console p |}).
Proof.
  intros Hread Hparse Hroles Hown Hproto. unfold deleteRole, bind.
  rewrite (readDb_parsed _ _ _ _ Hread Hparse). cbv beta iota.
  unfold get_roles, ret, js_get, writeDb, on_disk. rewrite Hroles, Hown.
  rewrite bool_decide_eq_true_2 by done. simpl.
  rewrite (own_delete_absent _ _ Hown).
  by destruct (write _ _ _) as [[] ?].
Qed.

End FileDB_any_Fs.

(* ===================================================================== *)
(** * The blob backends *)
(* ===================================================================== *)

Lemma MemFs_never_written (writes : list (string * string)) key
    (files : gmap string string) :
  files !! key = None ->
  key ∉ map fst writes ->
  fold_left (fun fs kc => snd (write (fst kc) (snd kc) fs)) writes files
    !! key = None.
Proof.
  revert files. induction writes as [|[k c] writes IH]; intros files Hf Hk;
    simpl; [done|].
  simpl in Hk. apply not_elem_of_cons in Hk as [Hne Hk].
  apply IH; [|done]. by rewrite lookup_insert_ne.
Qed.

(** C5.  Reading a key that was never written ([MemFs]), or a path at which
    no file exists ([RealFs]), yields the text [{}], not a failure. *)
Theorem read_missing_is_empty_object :
  (forall (writes : list (string * string)) key,
      key ∉ map fst writes ->
      fst (read key
             (fold_left (fun fs kc => snd (write (fst kc) (snd kc) fs))
                writes (∅ : gmap string string)))
      = Ok "{}")
  /\ (forall (w : world) path,
        w_files w !! path = None ->
        w_fault w (SysReadFile path) = None ->
        fst (read path w) = Ok "{}").
Proof.
  split.
  - intros writes key Hk. simpl.
    by rewrite MemFs_never_written; [|apply lookup_empty|].
  - intros w path Hfile Hfault. simpl.
    unfold RealFs_read, try_catch, readFile. simpl.
    by rewrite Hfault, Hfile.
Qed.

(** C4.  [RealFs.write(".data/db.json", ...)] with [os.tmpdir()] at [/tmp]:
    the content is written to [/tmp/tmp-0] and renamed from there; the
    staging file is in [/tmp], the target in [.data]. *)
Theorem RealFs_write_stages_in_tmpdir :
  w_trace (snd (RealFs_write ".data/db.json" "{}" quiet_world))
  = [ SysMkdir ".data"; SysTmpFile "/tmp/tmp-0";
      SysWriteFile "/tmp/tmp-0" "{}";
      SysRename "/tmp/tmp-0" ".data/db.json"; SysUnlink "/tmp/tmp-0" ]
  /\ dirname "/tmp/tmp-0" = "/tmp"
  /\ dirname ".data/db.json" = ".data"
  /\ dirname "/tmp/tmp-0" ≠ dirname ".data/db.json".
Proof. repeat split; try by vm_compute. Qed.

(** With [/tmp] on a file system of its own the rename fails, so the write
    never succeeds. *)
Lemma RealFs_write_across_devices content :
  exists w',
    RealFs_write ".data/db.json" content split_world
    = (Throw (ErrnoException "EXDEV"), w')
    /\ w_files w' = ∅.
Proof. eexists. split; [by vm_compute|by vm_compute]. Qed.

(** C8.  A failure of [RealFs.write] at the staging write or at the rename
    (the file was staged, and the clean-up itself is not made to fail):
    the error reaches the caller, the files are exactly those before the
    call, so the target has its prior content or is still absent and reads
    as before, and the staging file is gone. *)
Theorem RealFs_write_failure w path content code :
  w_fault w (SysMkdir (dirname path)) = None ->
  w_fault w (SysTmpFile (tmp_name w)) = None ->
  w_files w !! tmp_name w = None ->
  w_fault w (SysUnlink (tmp_name w)) = None ->
  w_fault w (SysWriteFile (tmp_name w) content) = Some code
  ∨ (w_fault w (SysWriteFile (tmp_name w) content) = None
     /\ rename_fails w (tmp_name w) path code) ->
  exists w',
    RealFs_write path content w = (Throw (ErrnoException code), w')
    /\ w_files w' !! path = w_files w !! path
    /\ w_files w' !! tmp_name w = None
    /\ w_files w' = w_files w
    /\ fst (RealFs_read path w') = fst (RealFs_read path w).
Proof.
  intros Hmkdir Htmp Hfresh Hunlink Hfail.
  assert (Hrestore : forall x y,
             delete (tmp_name w) (<[tmp_name w := x]> (<[tmp_name w := y]> (w_files w)))
             = w_files w).
  { intros x y. rewrite insert_insert_eq, delete_insert_eq. by apply delete_id. }
  assert (Hread : forall w', w_files w' = w_files w -> w_fault w' = w_fault w ->
             fst (RealFs_read path w') = fst (RealFs_read path w)).
  { intros w' Hf Hq. unfold RealFs_read, try_catch, readFile. simpl.
    rewrite Hf, Hq. unfold ret, throw.
    destruct (w_fault w (SysReadFile path)) as [c|];
      [destruct (bool_decide (c = "ENOENT"))
      |destruct (w_files w !! path)]; reflexivity. }
  unfold RealFs_write, bind, mkdir. simpl. rewrite Hmkdir.
  unfold tmp_fileSync. simpl. unfold tmp_name in *. simpl.
  rewrite Htmp, Hfresh. unfold try_finally, bind, writeFile. simpl.
  destruct Hfail as [Hwrite | (Hwrite & Hrename)]; rewrite Hwrite.
  - unfold removeCallback. simpl. rewrite Hunlink.
    eexists. split; [reflexivity|]. simpl. rewrite Hrestore.
    repeat split; [done|]. by apply Hread.
  - unfold rename. simpl.
    destruct Hrename as [Hrename | (Hrename & Hdev & ->)]; rewrite Hrename.
    + unfold removeCallback. simpl. rewrite Hunlink.
      eexists. split; [reflexivity|]. simpl. rewrite Hrestore.
      repeat split; [done|]. by apply Hread.
    + rewrite bool_decide_eq_false_2 by done.
      unfold removeCallback. simpl. rewrite Hunlink.
      eexists. split; [reflexivity|]. simpl. rewrite Hrestore.
      repeat split; [done|]. by apply Hread.
Qed.

(** On success too the staging file is gone: it was renamed away, and the
    clean-up finds nothing to unlink. *)
Lemma RealFs_write_success w path content w' :
  RealFs_write path content w = (Ok tt, w') ->
  path ≠ tmp_name w ->
  w_files w' !! path = Some content /\ w_files w' !! tmp_name w = None.
Proof.
  unfold RealFs_write, bind, mkdir, tmp_fileSync, try_finally, bind,
    writeFile, rename, removeCallback, tmp_name. simpl.
  intros H Hne. repeat (case_match; simpl in *; simplify_eq); simpl.
  all: split; by simplify_map_eq.
Qed.

(* ===================================================================== *)
(** * The record store: one call after another *)
(* ===================================================================== *)

Section record_store.

Context {codec : JsonCodec} (laws : JsonLaws codec).
Variable dbPath : string.

Implicit Type p : process (gmap string string).

Lemma keyed_by_id_reachable p :
  reachable dbPath p -> keyed_by_id (load dbPath p).
Proof.
  induction 1 as [|e p Hadm Hreach IH].
  - rewrite (load_empty_store laws). split; [done|].
    intros k v Hin. by apply elem_of_nil in Hin.
  - pose proof IH as [Hs _]. destruct e as [|roleId|roleData|roleId|content];
      simpl in *.
    + rewrite listRoles_MemFs by done. simpl.
      by rewrite (load_settled laws).
    + rewrite getRole_MemFs by done. simpl. by rewrite (load_settled laws).
    + destruct Hadm as [k Hk]. rewrite (load_after_upsertRole laws) by done.
      rewrite Hk. simpl. by apply keyed_by_id_upsert.
    + rewrite deleteRole_MemFs by done.
      destruct (roles_object (load dbPath p)) as [r|] eqn:Hr;
        [destruct (truthy (js_get r roleId))|]; simpl;
        rewrite ?(load_settled laws); try done.
      rewrite (load_put laws).
      * replace r with (roles_in (load dbPath p))
          by (unfold roles_in; by rewrite Hr).
        by apply keyed_by_id_delete.
      * apply wf_with_roles; [apply (wf_load laws)|].
        apply wf_own_delete.
        replace r with (roles_in (load dbPath p))
          by (unfold roles_in; by rewrite Hr).
        apply wf_roles_in, (wf_load laws).
    + unfold load, blob. simpl. rewrite lookup_insert_eq, Hadm.
      apply keyed_by_id_emptyDb.
Qed.

(** C3.  In every store reached from the empty one by calls of the record
    store (upserts of records whose [id] is set, deletions, reads) and by
    damage to the backing text, which the next call resets: if the
    persisted text parses, the document inhabits the schema and every
    entry [(k, v)] of its [roles] mapping has [v.id == k]. *)
Theorem persisted_roles_keyed_by_id p :
  reachable dbPath p ->
  forall db,
    JSON_parse (blob dbPath p) = Some db ->
    schema db = true
    /\ forall k v, (k, v) ∈ roles_in db -> id_is k v.
Proof.
  intros Hreach db Hparse.
  pose proof (keyed_by_id_reachable p Hreach) as H.
  unfold load in H. by rewrite Hparse in H.
Qed.

(** C7.  A record whose [id] is ["__proto__"]: the assignment
    [db.roles["__proto__"] = roleData] reaches the inherited setter, the
    mapping that is persisted has no entry for the record, and
    [getRole("__proto__")] resolves to [Object.prototype], not to the
    record. *)
Theorem upsertRole_proto_then_getRole roleData p :
  Role.id roleData = Some "__proto__" ->
  schema (load dbPath p) = true ->
  own_get "__proto__" (roles_in (load dbPath p)) = None ->
  roles_in (load dbPath (snd (upsertRole dbPath roleData p)))
  = roles_in (load dbPath p)
  /\ fst (getRole dbPath "__proto__" (snd (upsertRole dbPath roleData p)))
     = Ok (Builtin "__proto__")
  /\ Ok (Builtin "__proto__") ≠ Ok (Json (role_object roleData)).
Proof.
  intros Hid Hs Hown. split; [|split; [|done]].
  - rewrite (roles_after_upsertRole laws) by done. rewrite Hid. simpl.
    by apply js_assign_proto.
  - rewrite (getRole_after_upsertRole laws) by done. rewrite Hid. simpl.
    rewrite js_assign_proto by done. unfold js_get. by rewrite Hown.
Qed.

Ltac distinct_keys :=
  first [ rewrite decide_False by congruence
        | rewrite bool_decide_eq_false_2 by congruence ];
  simpl.

Lemma roles_after_upsert_all rs p :
  schema (load dbPath p) = true ->
  schema (load dbPath (upsert_all dbPath rs p)) = true
  /\ roles_in (load dbPath (upsert_all dbPath rs p))
     = fold_left
         (fun o r =>
            js_assign o (to_property_key (Role.id r)) (role_object r))
         rs (roles_in (load dbPath p)).
Proof.
  revert p. induction rs as [|r rs IH]; intros p Hs; simpl; [done|].
  destruct (IH (snd (upsertRole dbPath r p))) as [Hs' Hr'].
  { by apply (schema_after_upsertRole laws). }
  split; [done|]. rewrite Hr'. by rewrite (roles_after_upsertRole laws).
Qed.

Lemma listRoles_after_upsert_all rs :
  fst (listRoles dbPath (upsert_all dbPath rs empty_store))
  = Ok (map snd
          (fold_left
             (fun o r =>
                js_assign o (to_property_key (Role.id r)) (role_object r))
             rs [])).
Proof.
  assert (Hs : schema (load dbPath empty_store) = true)
    by by rewrite (load_empty_store laws).
  destruct (roles_after_upsert_all rs empty_store Hs) as [Hs' Hr].
  rewrite listRoles_MemFs by done. simpl. rewrite Hr.
  by rewrite (load_empty_store laws).
Qed.

(** Three upserts with distinct keys, none of them ["__proto__"]:
    [listRoles] returns the three records. *)
Lemma listRoles_after_three_upserts a b c ka kb kc :
  Role.id a = Some ka -> Role.id b = Some kb -> Role.id c = Some kc ->
  ka ≠ kb -> ka ≠ kc -> kb ≠ kc ->
  ka ≠ "__proto__" -> kb ≠ "__proto__" -> kc ≠ "__proto__" ->
  exists listed,
    fst (listRoles dbPath (upsert_all dbPath [a; b; c] empty_store))
    = Ok listed
    /\ listed ≡ₚ [role_object a; role_object b; role_object c].
Proof.
  intros Ha Hb Hc Hab Hac Hbc Hpa Hpb Hpc.
  rewrite listRoles_after_upsert_all. simpl. rewrite Ha, Hb, Hc. simpl.
  unfold js_assign. simpl. repeat distinct_keys.
  eexists. split; [reflexivity | done].
Qed.

(** C9.  Three upserts with distinct ids, the first of them ["__proto__"]:
    [listRoles] returns the other two records only, in some order. *)
Theorem listRoles_after_upsert_proto a b c kb kc :
  Role.id a = Some "__proto__" ->
  Role.id b = Some kb -> Role.id c = Some kc ->
  kb ≠ kc -> kb ≠ "__proto__" -> kc ≠ "__proto__" ->
  exists listed,
    fst (listRoles dbPath (upsert_all dbPath [a; b; c] empty_store))
    = Ok listed
    /\ listed ≡ₚ [role_object b; role_object c].
Proof.
  intros Ha Hb Hc Hbc Hpb Hpc.
  rewrite listRoles_after_upsert_all. simpl. rewrite Ha, Hb, Hc. simpl.
  unfold js_assign. simpl. repeat distinct_keys.
  eexists. split; [reflexivity | done].
Qed.

(** C10.  A record without [id], upserted into a store whose document
    inhabits the schema: the call resolves without error, the record is
    filed under the key ["undefined"], and [getRole("undefined")] returns
    it. *)
Theorem upsertRole_without_id roleData p :
  Role.id roleData = None ->
  schema (load dbPath p) = true ->
  fst (upsertRole dbPath roleData p) = Ok Undefined
  /\ own_get "undefined"
       (roles_in (load dbPath (snd (upsertRole dbPath roleData p))))
     = Some (role_object roleData)
  /\ fst (getRole dbPath "undefined" (snd (upsertRole dbPath roleData p)))
     = Ok (Json (role_object roleData)).
Proof.
  intros Hid Hs. split; [|split].
  - by rewrite upsertRole_MemFs.
  - rewrite (roles_after_upsertRole laws) by done. rewrite Hid. simpl.
    by apply js_assign_get.
  - pose proof (upsertRole_then_getRole laws dbPath roleData p Hs) as H.
    rewrite Hid in H. simpl in H. by apply H.
Qed.

End record_store.

(* ===================================================================== *)
(** * The theorems at concrete inputs *)
(* ===================================================================== *)

(** [readDb] on a store whose text is [not json]. *)
Lemma readDb_decode_failure_witness :
  JSON_parse "not json" = None
  /\ fst (readDb default_dbPath damaged_store)
     = Ok (JObj [("roles", JObj [])])
  /\ disk (snd (readDb default_dbPath damaged_store)) !! default_dbPath
     = Some (Json.stringify (JObj [("roles", JObj [])]))
  /\ length (console (snd (readDb default_dbPath damaged_store))) = 2.
Proof.
  assert (Hparse : JSON_parse "not json" = None) by (vm_compute; reflexivity).
  split; [exact Hparse|].
  assert (Hread : read default_dbPath (disk damaged_store)
                  = (Ok "not json", disk damaged_store))
    by (vm_compute; reflexivity).
  destruct (readDb_decode_failure default_dbPath damaged_store "not json"
              (disk damaged_store) Hread Hparse)
    as (w & d2 & Hw & Hc & Hd & Hr).
  simpl in Hw. injection Hw as <- <-.
  rewrite Hr, Hd, Hc. split; [reflexivity|]. split; [|reflexivity].
  apply lookup_insert_eq.
Defined.

(** [upsertRole({ id: "x", name: "n" })] on the empty store. *)
Lemma upsertRole_does_not_return_id_witness :
  fst (upsertRole default_dbPath (role (Some "x") (Some "n")) empty_store)
  = Ok Undefined
  /\ fst (upsertRole default_dbPath (role (Some "x") (Some "n")) empty_store)
     ≠ Ok (Json (JStr "x")).
Proof.
  split; [vm_compute; reflexivity|].
  apply (upsertRole_does_not_return_id default_dbPath
           (role (Some "x") (Some "n")) empty_store "x").
  reflexivity.
Defined.

(** The store after [upsertRole({ id: "x", name: "n" })]. *)
Lemma persisted_roles_keyed_by_id_witness :
  let p := after default_dbPath (UpsertRole (role (Some "x") (Some "n")))
             empty_store in
  let db := JObj [("roles",
                   JObj [("x", JObj [("id", JStr "x"); ("name", JStr "n")])])]
  in
  JSON_parse (blob default_dbPath p) = Some db
  /\ schema db = true
  /\ forall k v, (k, v) ∈ roles_in db -> id_is k v.
Proof.
  intros p db.
  assert (Hparse : JSON_parse (blob default_dbPath p) = Some db)
    by (vm_compute; reflexivity).
  split; [exact Hparse|].
  apply (persisted_roles_keyed_by_id json_codec_laws default_dbPath p);
    [|exact Hparse].
  apply reachable_step; [simpl; eauto | apply reachable_empty].
Defined.

(** A key that was not written, and a path with no file. *)
Lemma read_missing_is_empty_object_witness :
  fst (read "b" (snd (write "a" "1" (∅ : gmap string string)))) = Ok "{}"
  /\ fst (read default_dbPath quiet_world) = Ok "{}".
Proof.
  destruct read_missing_is_empty_object as [Hmem Hreal]. split.
  - apply (Hmem [("a", "1")] "b"). vm_compute.
    intros H. by apply list_elem_of_singleton in H.
  - apply (Hreal quiet_world default_dbPath); reflexivity.
Defined.

(** [deleteRole("constructor")] on a store that holds no record. *)
Lemma deleteRole_inherited_member_witness :
  own_get "constructor" (roles_in (load default_dbPath reset_store)) = None
  /\ fst (deleteRole default_dbPath "constructor" reset_store) = Ok true.
Proof.
  split; [vm_compute; reflexivity|].
  rewrite (deleteRole_inherited_member default_dbPath reset_store
             (Json.stringify emptyDb) (disk reset_store)
             [("roles", JObj [])] [] "constructor").
  - reflexivity.
  - reflexivity.
  - vm_compute; reflexivity.
  - reflexivity.
  - reflexivity.
  - apply (bool_decide_unpack _). vm_compute. exact I.
Defined.

(** [upsertRole({ id: "__proto__", name: "n" })], then
    [getRole("__proto__")], on the empty store. *)
Lemma upsertRole_proto_then_getRole_witness :
  let r := role (Some "__proto__") (Some "n") in
  roles_in (load default_dbPath (snd (upsertRole default_dbPath r empty_store)))
  = []
  /\ fst (getRole default_dbPath "__proto__"
            (snd (upsertRole default_dbPath r empty_store)))
     = Ok (Builtin "__proto__").
Proof.
  intros r.
  destruct (upsertRole_proto_then_getRole json_codec_laws default_dbPath r
              empty_store) as (Hroles & Hget & _).
  - reflexivity.
  - vm_compute; reflexivity.
  - vm_compute; reflexivity.
  - split; [rewrite Hroles; vm_compute; reflexivity | exact Hget].
Defined.

(** [RealFs.write] on a full disk. *)
Lemma RealFs_write_failure_witness :
  exists w',
    RealFs_write default_dbPath "new" full_disk_world
    = (Throw (ErrnoException "ENOSPC"), w')
    /\ w_files w' !! default_dbPath = Some "{}"
    /\ w_files w' !! "/tmp/tmp-0" = None.
Proof.
  destruct (RealFs_write_failure full_disk_world default_dbPath "new" "ENOSPC")
    as (w' & Hw & Hpath & Htmp & _ & _).
  - reflexivity.
  - reflexivity.
  - vm_compute; reflexivity.
  - reflexivity.
  - left. reflexivity.
  - exists w'. split; [exact Hw|]. split; [|exact Htmp].
    rewrite Hpath. vm_compute; reflexivity.
Defined.

(** Upserts of [__proto__], [b] and [c], then [listRoles]. *)
Lemma listRoles_after_upsert_proto_witness :
  exists listed,
    fst (listRoles default_dbPath
           (upsert_all default_dbPath
              [role (Some "__proto__") None; role (Some "b") None;
               role (Some "c") None]
              empty_store))
    = Ok listed
    /\ listed ≡ₚ [JObj [("id", JStr "b")]; JObj [("id", JStr "c")]].
Proof.
  apply (listRoles_after_upsert_proto json_codec_laws default_dbPath
           (role (Some "__proto__") None) (role (Some "b") None)
           (role (Some "c") None) "b" "c");
    first [reflexivity | discriminate].
Defined.

(** [upsertRole({ name: "n" })], then [getRole("undefined")], on the empty
    store. *)
Lemma upsertRole_without_id_witness :
  let r := role None (Some "n") in
  fst (upsertRole default_dbPath r empty_store) = Ok Undefined
  /\ fst (getRole default_dbPath "undefined"
            (snd (upsertRole default_dbPath r empty_store)))
     = Ok (Json (JObj [("name", JStr "n")])).
Proof.
  intros r.
  destruct (upsertRole_without_id json_codec_laws default_dbPath r empty_store)
    as (Hok & _ & Hget).
  - reflexivity.
  - vm_compute; reflexivity.
  - split; [exact Hok | exact Hget].
Defined.

(* ===================================================================== *)
(** * Further evaluations *)
(* ===================================================================== *)

(** Self-healing: [listRoles] on damaged text yields no record and leaves
    the empty schema behind, with the two messages on the console. *)
Example listRoles_heals_damaged_store :
  fst (listRoles default_dbPath damaged_store) = Ok []
  /\ blob default_dbPath (snd (listRoles default_dbPath damaged_store))
     = Json.stringify emptyDb
  /\ length (console (snd (listRoles default_dbPath damaged_store))) = 2.
Proof. repeat split; vm_compute; reflexivity. Qed.

(** Text that is JSON but not a schema is not healed: on the document
    [null] every call throws a [TypeError] and the text stays. *)
Example null_document_is_not_healed :
  fst (listRoles default_dbPath null_store) = Throw TypeError
  /\ fst (upsertRole default_dbPath (role (Some "x") None) null_store)
     = Throw TypeError
  /\ snd (listRoles default_dbPath null_store) = null_store.
Proof. repeat split; vm_compute; reflexivity. Qed.

(** [getRole] with the name of an inherited member resolves to that member,
    not to [null]. *)
Example getRole_inherited_member :
  fst (getRole default_dbPath "toString" reset_store) = Ok (Builtin "toString")
  /\ fst (getRole default_dbPath "x" reset_store) = Ok (Json JNull).
Proof. split; vm_compute; reflexivity. Qed.

(** Upsert, delete, get: the record is gone. *)
Example upsertRole_deleteRole_getRole :
  let p1 := snd (upsertRole default_dbPath (role (Some "x") (Some "n"))
                   empty_store) in
  fst (deleteRole default_dbPath "x" p1) = Ok true
  /\ fst (getRole default_dbPath "x" (snd (deleteRole default_dbPath "x" p1)))
     = Ok (Json JNull)
  /\ fst (deleteRole default_dbPath "missing" p1) = Ok false
  /\ snd (deleteRole default_dbPath "missing" p1) = p1.
Proof. repeat split; vm_compute; reflexivity. Qed.

(* ===================================================================== *)
(** * Further properties of the blob backends *)
(* ===================================================================== *)

Lemma MemFs_other_writes (writes : list (string * string)) key
    (files : gmap string string) :
  key ∉ map fst writes ->
  fold_left (fun fs kc => snd (write (fst kc) (snd kc) fs)) writes files
    !! key = files !! key.
Proof.
  revert files. induction writes as [|[k c] writes IH]; intros files Hk;
    simpl; [done|].
  simpl in Hk. apply not_elem_of_cons in Hk as [Hne Hk].
  rewrite IH by done. by apply lookup_insert_ne.
Qed.

(** X1.  [MemFs]: after any sequence of writes, [read(key)] yields the
    content of the last write to [key], whatever was written to other keys
    before or after. *)
Theorem MemFs_read_last_write (before after : list (string * string))
    key content (files : gmap string string) :
  key ∉ map fst after ->
  fst (read key
         (fold_left (fun fs kc => snd (write (fst kc) (snd kc) fs))
            (before ++ (key, content) :: after) files))
  = Ok content.
Proof.
  intros Hk. rewrite fold_left_app. simpl.
  rewrite MemFs_other_writes by done. by rewrite lookup_insert_eq.
Qed.

Lemma tmp_name_traced c w : tmp_name (traced c w) = tmp_name w.
Proof. reflexivity. Qed.

(** [RealFs.write] in a calm world, with staging on the file system of the
    target: the result and the world after it. *)
Lemma RealFs_write_calm w path content :
  calm w ->
  w_files w !! tmp_name w = None ->
  path ≠ tmp_name w ->
  w_device w (dirname (tmp_name w)) = w_device w (dirname path) ->
  exists w',
    RealFs_write path content w = (Ok tt, w')
    /\ w_files w' = <[path := content]> (w_files w)
    /\ w_fault w' = w_fault w
    /\ w_device w' = w_device w
    /\ w_tmpdir w' = w_tmpdir w.
Proof.
  intros Hcalm Hfresh Hne Hdev.
  unfold RealFs_write, bind, mkdir. simpl. rewrite Hcalm.
  unfold tmp_fileSync. simpl. unfold tmp_name in *. simpl.
  rewrite Hcalm, Hfresh. unfold try_finally, bind, writeFile. simpl.
  rewrite Hcalm. unfold rename. simpl. rewrite Hcalm.
  rewrite bool_decide_eq_true_2 by done. rewrite lookup_insert_eq.
  unfold removeCallback. simpl. rewrite Hcalm.
  eexists. split; [reflexivity|]. simpl. repeat split.
  apply map_eq. intros i.
  destruct (decide (i = w_tmpdir w +:+ "/tmp-" +:+ pretty (w_serial w)))
    as [->|Hi].
  - rewrite lookup_delete_eq, lookup_insert_ne by done. by rewrite Hfresh.
  - rewrite lookup_delete_ne by done.
    destruct (decide (i = path)) as [->|Hp].
    + by rewrite !lookup_insert_eq.
    + rewrite !lookup_insert_ne by done. rewrite lookup_delete_ne by done.
      by rewrite !lookup_insert_ne by done.
Qed.

(** X2.  [RealFs]: in a world where no call fails and the temporary
    directory is on the file system of the target, [write] succeeds,
    [read] of the path then yields the content, exactly that one file has
    changed, and no staging file is left. *)
Theorem RealFs_write_then_read w path content :
  calm w ->
  w_files w !! tmp_name w = None ->
  path ≠ tmp_name w ->
  w_device w (dirname (tmp_name w)) = w_device w (dirname path) ->
  exists w',
    RealFs_write path content w = (Ok tt, w')
    /\ fst (RealFs_read path w') = Ok content
    /\ w_files w' = <[path := content]> (w_files w)
    /\ w_files w' !! tmp_name w = None.
Proof.
  intros Hcalm Hfresh Hne Hdev.
  destruct (RealFs_write_calm w path content Hcalm Hfresh Hne Hdev)
    as (w' & Hw & Hfiles & Hfault & _).
  exists w'. split; [done|]. split; [|split; [done|]].
  - unfold RealFs_read, try_catch, readFile. simpl.
    rewrite Hfault, Hcalm, Hfiles. by rewrite lookup_insert_eq.
  - rewrite Hfiles. by rewrite lookup_insert_ne.
Qed.

(** X3.  [RealFs]: when the temporary directory is on another file system
    than the target, [write] never succeeds, whatever the environment
    does, and the target is left as it was. *)
Theorem RealFs_write_never_succeeds_across_devices w path content :
  w_device w (dirname (tmp_name w)) ≠ w_device w (dirname path) ->
  path ≠ tmp_name w ->
  fst (RealFs_write path content w) ≠ Ok tt
  /\ w_files (snd (RealFs_write path content w)) !! path = w_files w !! path.
Proof.
  intros Hdev Hne.
  unfold RealFs_write, bind, mkdir, tmp_fileSync, try_finally, bind,
    writeFile, rename, removeCallback, tmp_name in *. simpl.
  repeat (case_match; simpl in *; simplify_eq); simpl;
    try match goal with
        | H : bool_decide _ = true |- _ =>
            apply bool_decide_eq_true_1 in H; done
        end;
    (split; [done|]); by simplify_map_eq.
Qed.

(** X4.  [RealFs.read]: an error of [readFile] other than [ENOENT] is
    rethrown to the caller as it is, and reading changes no file. *)
Theorem RealFs_read_rethrows w path code :
  w_fault w (SysReadFile path) = Some code ->
  code ≠ "ENOENT" ->
  fst (RealFs_read path w) = Throw (ErrnoException code)
  /\ w_files (snd (RealFs_read path w)) = w_files w.
Proof.
  intros Hfault Hcode. unfold RealFs_read, try_catch, readFile. simpl.
  rewrite Hfault. by rewrite bool_decide_eq_false_2.
Qed.

(* ===================================================================== *)
(** * Further properties of [FileDB] over any [Fs] *)
(* ===================================================================== *)

Section FileDB_any_Fs_more.

Context {codec : JsonCodec} {St : Type} {fs : Fs St}.
Variable dbPath : string.

Implicit Type p : process St.

(** X5.  When [fs.read] throws, each of the four calls rethrows that error
    to its caller; nothing is logged and [fs.write] is not called. *)
Theorem read_failure_reaches_caller p e d1 :
  read dbPath (disk p) = (Throw e, d1) ->
  let q := {| disk := d1; console := console p |} in
  listRoles dbPath p = (Throw e, q)
  /\ (forall roleId, getRole dbPath roleId p = (Throw e, q))
  /\ (forall roleData, upsertRole dbPath roleData p = (Throw e, q))
  /\ (forall roleId, deleteRole dbPath roleId p = (Throw e, q)).
Proof.
  intros Hread q.
  assert (Hdb : readDb dbPath p = (Throw e, q)).
  { unfold readDb, bind, on_disk. by rewrite Hread. }
  repeat split; intros;
    unfold listRoles, getRole, upsertRole, deleteRole, bind; by rewrite Hdb.
Qed.

(** X6.  When the stored text is the JSON document [null], each of the
    four calls throws a [TypeError]; the text is neither reset nor
    rewritten, and nothing is logged. *)
Theorem null_document_throws p content d1 :
  read dbPath (disk p) = (Ok content, d1) ->
  JSON_parse content = Some JNull ->
  let q := {| disk := d1; console := console p |} in
  listRoles dbPath p = (Throw TypeError, q)
  /\ (forall roleId, getRole dbPath roleId p = (Throw TypeError, q))
  /\ (forall roleData, upsertRole dbPath roleData p = (Throw TypeError, q))
  /\ (forall roleId, deleteRole dbPath roleId p = (Throw TypeError, q)).
Proof.
  intros Hread Hparse q.
  pose proof (readDb_parsed dbPath p content d1 JNull Hread Hparse) as Hdb.
  repeat split; intros;
    unfold listRoles, getRole, upsertRole, deleteRole, bind; by rewrite Hdb.
Qed.

(** X7.  When the stored text is a JSON number, string or boolean, the
    store reads as empty ([listRoles] gives no record, [getRole] gives
    [null], [deleteRole] gives [false]) but [upsertRole] throws a
    [TypeError]; no call rewrites the text. *)
Theorem primitive_document p content d1 db :
  read dbPath (disk p) = (Ok content, d1) ->
  JSON_parse content = Some db ->
  primitive db = true ->
  let q := {| disk := d1; console := console p |} in
  listRoles dbPath p = (Ok [], q)
  /\ (forall roleId, getRole dbPath roleId p = (Ok (Json JNull), q))
  /\ (forall roleData, upsertRole dbPath roleData p = (Throw TypeError, q))
  /\ (forall roleId, deleteRole dbPath roleId p = (Ok false, q)).
Proof.
  intros Hread Hparse Hprim q.
  pose proof (readDb_parsed dbPath p content d1 db Hread Hparse) as Hdb.
  destruct db; try discriminate Hprim;
    repeat split; intros;
    unfold listRoles, getRole, upsertRole, deleteRole, bind; by rewrite Hdb.
Qed.

(** X8.  When the stored text is a JSON array, [upsertRole] resolves as if
    it had stored the record, but what it writes is the array as it was:
    the record is lost. *)
Theorem upsertRole_into_array p content d1 items roleData :
  read dbPath (disk p) = (Ok content, d1) ->
  JSON_parse content = Some (JArr items) ->
  upsertRole dbPath roleData p
  = let (w, d2) := write dbPath (JSON_stringify (JArr items)) d1 in
    (match w with
     | Ok _ => Ok Undefined
     | Throw e => Throw e
     | OutsideSchema => OutsideSchema
     end, {| disk := d2; console := console p |}).
Proof.
  intros Hread Hparse. unfold upsertRole, bind.
  rewrite (readDb_parsed _ _ _ _ _ Hread Hparse). cbv beta iota.
  unfold writeDb, on_disk. simpl. by destruct (write _ _ _) as [[] ?].
Qed.

(** X9.  When the stored text parses, [listRoles] and [getRole] only read:
    [fs.write] is not called and nothing is logged, whatever the document
    is; [upsertRole] and [deleteRole] log nothing either. *)
Theorem parsed_text_is_only_read p content d1 db :
  read dbPath (disk p) = (Ok content, d1) ->
  JSON_parse content = Some db ->
  snd (listRoles dbPath p) = {| disk := d1; console := console p |}
  /\ (forall roleId,
        snd (getRole dbPath roleId p) = {| disk := d1; console := console p |})
  /\ (forall roleData,
        console (snd (upsertRole dbPath roleData p)) = console p)
  /\ (forall roleId, console (snd (deleteRole dbPath roleId p)) = console p).
Proof.
  intros Hread Hparse.
  pose proof (readDb_parsed dbPath p content d1 db Hread Hparse) as Hdb.
  repeat split; intros;
    unfold listRoles, getRole, upsertRole, deleteRole, bind; rewrite Hdb;
    unfold get_roles, ret, throw, outside_schema, writeDb, on_disk;
    repeat (case_match; simpl in *; simplify_eq); reflexivity.
Qed.

(** X10.  [getRole] for an id that names no member of [Object.prototype]:
    the entry filed under the id if the [roles] object has one, [null]
    otherwise. *)
Theorem getRole_by_id p content d1 d r roleId :
  read dbPath (disk p) = (Ok content, d1) ->
  JSON_parse content = Some (JObj d) ->
  own_get "roles" d = Some (JObj r) ->
  roleId ∉ object_prototype_keys ->
  fst (getRole dbPath roleId p)
  = Ok (match own_get roleId r with
        | Some v => Json v
        | None => Json JNull
        end).
Proof.
  intros Hread Hparse Hroles Hproto. unfold getRole, bind.
  rewrite (readDb_parsed _ _ _ _ _ Hread Hparse). cbv beta iota.
  unfold get_roles, ret, js_get. rewrite Hroles. simpl.
  destruct (own_get roleId r) as [[]|]; try reflexivity.
  by rewrite bool_decide_eq_false_2.
Qed.

(** [upsertRole] on a document that inhabits the schema, in terms of the
    call of [fs.write] it makes. *)
Lemma upsertRole_writes p content d1 db roleData :
  read dbPath (disk p) = (Ok content, d1) ->
  JSON_parse content = Some db ->
  schema db = true ->
  upsertRole dbPath roleData p
  = let (w, d2) :=
      write dbPath
        (JSON_stringify
           (with_roles
              (js_assign (roles_in db) (to_property_key (Role.id roleData))
                 (role_object roleData)) db)) d1 in
    (match w with
     | Ok _ => Ok Undefined
     | Throw e => Throw e
     | OutsideSchema => OutsideSchema
     end, {| disk := d2; console := console p |}).
Proof.
  intros Hread Hparse Hs. unfold upsertRole, bind.
  rewrite (readDb_parsed _ _ _ _ _ Hread Hparse). cbv beta iota.
  destruct db as [| | | | |d]; try discriminate Hs.
  unfold roles_in, roles_object, with_roles, js_get, writeDb, on_disk.
  rewrite ?roles_is_no_builtin. simpl in Hs.
  destruct (own_get "roles" d) as [[| | | | |r]|]; try discriminate Hs;
    rewrite ?roles_is_no_builtin; simpl;
    by destruct (write _ _ _) as [[] ?].
Qed.

(** [getRole] on a document with a [roles] object. *)
Lemma getRole_reads p content d1 db r roleId :
  read dbPath (disk p) = (Ok content, d1) ->
  JSON_parse content = Some db ->
  roles_object db = Some r ->
  fst (getRole dbPath roleId p)
  = Ok (let found := js_get r roleId in
        if nullish found then Json JNull else found).
Proof.
  intros Hread Hparse Hr. unfold getRole, bind.
  rewrite (readDb_parsed _ _ _ _ _ Hread Hparse). cbv beta iota.
  destruct db as [| | | | |d]; try discriminate Hr.
  unfold roles_object in Hr. unfold get_roles, ret, js_get.
  destruct (own_get "roles" d) as [[| | | | |r']|]; try discriminate Hr.
  by injection Hr as ->.
Qed.

End FileDB_any_Fs_more.

(* ===================================================================== *)
(** * Further properties of the record store over [MemFs] *)
(* ===================================================================== *)

Section record_store_more.

Context {codec : JsonCodec} (laws : JsonLaws codec).
Variable dbPath : string.

Implicit Type p : process (gmap string string).

(** X11.  [readDb] settles the store: a second [readDb] returns the same
    document and changes nothing, so a reset happens, and is logged, only
    once. *)
Theorem readDb_twice p :
  readDb dbPath (snd (readDb dbPath p))
  = (fst (readDb dbPath p), snd (readDb dbPath p)).
Proof.
  rewrite !readDb_MemFs. simpl.
  by rewrite (load_settled laws), (settled_idem laws).
Qed.




(** X13.  The store reads and writes its own blob only: every other key of
    the [MemFs] keeps what it had, whatever the call and its outcome. *)
Theorem other_blobs_untouched p e key :
  key ≠ dbPath ->
  disk (after dbPath e p) !! key = disk p !! key.
Proof.
  intros Hkey.
  assert (Hsettled : disk (settled dbPath p) !! key = disk p !! key).
  { unfold settled, put. destruct (JSON_parse (blob dbPath p)); [done|].
    simpl. by rewrite lookup_insert_ne. }
  assert (Hput : forall db,
             disk (put dbPath db (settled dbPath p)) !! key = disk p !! key).
  { intros db. unfold put at 1. simpl. by rewrite lookup_insert_ne. }
  destruct e as [|roleId|roleData|roleId|content]; simpl;
    [| | | |by rewrite lookup_insert_ne];
    unfold listRoles, getRole, upsertRole, deleteRole, bind;
    rewrite readDb_MemFs; cbv beta iota;
    unfold get_roles, ret, throw, outside_schema;
    repeat (case_match; simpl in *; simplify_eq);
    first [exact Hsettled | apply Hput].
Qed.

End record_store_more.

Section own_props_more.

Context {A : Type}.
Implicit Types (o : list (string * A)) (k : string) (v : A).

Lemma own_set_own_set o k v v' : own_set k v' (own_set k v o) = own_set k v' o.
Proof.
  induction o as [|[k0 v0] o IH]; simpl.
  - by rewrite decide_True.
  - destruct (decide (k = k0)) as [->|Hne]; simpl.
    + by rewrite decide_True.
    + rewrite decide_False by done. by rewrite IH.
Qed.

End own_props_more.

Lemma js_assign_js_assign o k v v' :
  js_assign (js_assign o k v) k v' = js_assign o k v'.
Proof.
  unfold js_assign at 2 3. destruct (own_get k o) eqn:E.
  - unfold js_assign. rewrite own_get_set_eq. apply own_set_own_set.
  - destruct (bool_decide (k = "__proto__")) eqn:Hk.
    + unfold js_assign. by rewrite E, Hk.
    + unfold js_assign. rewrite own_get_set_eq. apply own_set_own_set.
Qed.

Lemma js_get_js_assign_ne o k v k' :
  k' ≠ k -> js_get (js_assign o k v) k' = js_get o k'.
Proof.
  intros Hne. unfold js_get, js_assign.
  destruct (own_get k o); [by rewrite own_get_set_ne|].
  destruct (bool_decide (k = "__proto__")); [done|].
  by rewrite own_get_set_ne.
Qed.

Lemma js_get_own_delete_ne o k k' :
  k' ≠ k -> js_get (own_delete k o) k' = js_get o k'.
Proof. intros Hne. unfold js_get. by rewrite own_get_delete_ne. Qed.

Lemma with_roles_with_roles r r' db :
  with_roles r' (with_roles r db) = with_roles r' db.
Proof. destruct db; try done. simpl. by rewrite own_set_own_set. Qed.

Lemma document_member_with_roles m r db :
  m ≠ "roles" -> document_member m (with_roles r db) = document_member m db.
Proof.
  intros Hm. destruct db; try done. simpl. by apply own_get_set_ne.
Qed.

Lemma not_builtin_not_proto k : k ∉ object_prototype_keys -> k ≠ "__proto__".
Proof.
  intros Hk ->. apply Hk. apply (bool_decide_unpack _). by vm_compute.
Qed.

(* ===================================================================== *)
(** * Further properties: calls of the record store, one after another *)
(* ===================================================================== *)

Section record_store_sequences.

Context {codec : JsonCodec} (laws : JsonLaws codec).
Variable dbPath : string.

Implicit Type p : process (gmap string string).

(** The document after [deleteRole]. *)
Lemma load_after_deleteRole roleId p :
  schema (load dbPath p) = true ->
  load dbPath (snd (deleteRole dbPath roleId p))
  = match roles_object (load dbPath p) with
    | Some r =>
        if truthy (js_get r roleId)
        then with_roles (own_delete roleId r) (load dbPath p)
        else load dbPath p
    | None => load dbPath p
    end.
Proof.
  intros Hs. rewrite deleteRole_MemFs by done.
  destruct (roles_object (load dbPath p)) as [r|] eqn:Hr;
    [destruct (truthy (js_get r roleId))|]; simpl;
    rewrite ?(load_settled laws); try done.
  apply (load_put laws), wf_with_roles; [apply (wf_load laws)|].
  apply wf_own_delete.
  replace r with (roles_in (load dbPath p)) by (unfold roles_in; by rewrite Hr).
  apply wf_roles_in, (wf_load laws).
Qed.

Lemma schema_after_deleteRole roleId p :
  schema (load dbPath p) = true ->
  schema (load dbPath (snd (deleteRole dbPath roleId p))) = true.
Proof.
  intros Hs. rewrite load_after_deleteRole by done.
  repeat case_match; try done. by apply schema_with_roles.
Qed.

(** X14.  Upserting two records under the same key leaves the store with
    the same document as upserting the second alone: the later record
    replaces the earlier one. *)
Theorem upsertRole_last_wins r1 r2 p :
  schema (load dbPath p) = true ->
  to_property_key (Role.id r1) = to_property_key (Role.id r2) ->
  load dbPath (snd (upsertRole dbPath r2 (snd (upsertRole dbPath r1 p))))
  = load dbPath (snd (upsertRole dbPath r2 p)).
Proof.
  intros Hs Hk.
  rewrite (load_after_upsertRole laws)
    by by apply (schema_after_upsertRole laws).
  rewrite (roles_after_upsertRole laws) by done.
  rewrite !(load_after_upsertRole laws) by done.
  rewrite Hk, js_assign_js_assign. apply with_roles_with_roles.
Qed.

(** X15.  [upsertRole] leaves every other record as it was: [getRole] for
    another id, one that names no member of [Object.prototype], resolves
    to what it resolved to before. *)
Theorem upsertRole_keeps_other_records roleData roleId p :
  schema (load dbPath p) = true ->
  roleId ≠ to_property_key (Role.id roleData) ->
  roleId ∉ object_prototype_keys ->
  fst (getRole dbPath roleId (snd (upsertRole dbPath roleData p)))
  = fst (getRole dbPath roleId p).
Proof.
  intros Hs Hne Hproto.
  rewrite (getRole_after_upsertRole laws) by done.
  rewrite getRole_MemFs by done. simpl.
  rewrite js_get_js_assign_ne by done.
  unfold roles_in. destruct (roles_object (load dbPath p)); [done|].
  unfold js_get. simpl. by rewrite bool_decide_eq_false_2.
Qed.

(** X16.  Upsert, then delete by the same key, then get: [deleteRole]
    resolves to [true] and [getRole] to [null], for every key that names
    no member of [Object.prototype]. *)
Theorem upsertRole_deleteRole_then_getRole roleData p :
  schema (load dbPath p) = true ->
  to_property_key (Role.id roleData) ∉ object_prototype_keys ->
  let k := to_property_key (Role.id roleData) in
  let p1 := snd (upsertRole dbPath roleData p) in
  fst (deleteRole dbPath k p1) = Ok true
  /\ fst (getRole dbPath k (snd (deleteRole dbPath k p1))) = Ok (Json JNull).
Proof.
  intros Hs Hproto k p1.
  pose proof (not_builtin_not_proto _ Hproto) as Hk.
  assert (Hs1 : schema (load dbPath p1) = true)
    by by apply (schema_after_upsertRole laws).
  assert (Hr1 : roles_object (load dbPath p1)
                = Some (js_assign (roles_in (load dbPath p)) k
                          (role_object roleData))).
  { unfold p1. rewrite (load_after_upsertRole laws) by done.
    by apply roles_object_with_roles. }
  assert (Hfound : js_get (js_assign (roles_in (load dbPath p)) k
                             (role_object roleData)) k
                   = Json (role_object roleData)).
  { unfold js_get. by rewrite js_assign_get. }
  split.
  - rewrite deleteRole_MemFs by done. rewrite Hr1, Hfound. reflexivity.
  - rewrite getRole_MemFs by by apply schema_after_deleteRole.
    simpl. rewrite load_after_deleteRole by done. rewrite Hr1, Hfound. simpl.
    rewrite roles_object_with_roles by done.
    unfold js_get. rewrite own_get_delete_eq.
    by rewrite bool_decide_eq_false_2.
Qed.

(** X17.  [deleteRole] leaves every other record as it was: [getRole] for
    another id resolves to what it resolved to before. *)
Theorem deleteRole_keeps_other_records roleId other p :
  schema (load dbPath p) = true ->
  other ≠ roleId ->
  fst (getRole dbPath other (snd (deleteRole dbPath roleId p)))
  = fst (getRole dbPath other p).
Proof.
  intros Hs Hne.
  rewrite getRole_MemFs by by apply schema_after_deleteRole.
  rewrite getRole_MemFs by done. simpl.
  rewrite load_after_deleteRole by done.
  destruct (roles_object (load dbPath p)) as [r|] eqn:Hr; [|by rewrite Hr].
  destruct (truthy (js_get r roleId)); [|by rewrite Hr].
  rewrite roles_object_with_roles by done.
  by rewrite js_get_own_delete_ne.
Qed.

(** X18.  Deleting twice: for an id that names no member of
    [Object.prototype], the second [deleteRole] resolves to [false] and
    changes nothing. *)
Theorem deleteRole_twice roleId p :
  schema (load dbPath p) = true ->
  roleId ∉ object_prototype_keys ->
  let p1 := snd (deleteRole dbPath roleId p) in
  deleteRole dbPath roleId p1 = (Ok false, p1).
Proof.
  intros Hs Hproto p1.
  assert (Hp1 : settled dbPath p1 = p1).
  { unfold p1. rewrite deleteRole_MemFs by done.
    destruct (roles_object (load dbPath p)) as [r|] eqn:Hr;
      [destruct (truthy (js_get r roleId))|]; simpl;
      rewrite ?(settled_idem laws); try done.
    apply (settled_put laws), wf_with_roles; [apply (wf_load laws)|].
    apply wf_own_delete.
    replace r with (roles_in (load dbPath p))
      by (unfold roles_in; by rewrite Hr).
    apply wf_roles_in, (wf_load laws). }
  rewrite deleteRole_MemFs by by apply schema_after_deleteRole.
  rewrite Hp1. unfold p1. rewrite load_after_deleteRole by done.
  destruct (roles_object (load dbPath p)) as [r|] eqn:Hr; [|by rewrite Hr].
  destruct (truthy (js_get r roleId)) eqn:Ht; [|by rewrite Hr, Ht].
  rewrite roles_object_with_roles by done.
  unfold js_get. rewrite own_get_delete_eq.
  by rewrite bool_decide_eq_false_2.
Qed.

(** X19.  [upsertRole] and [deleteRole] rewrite the whole document but
    change only its [roles] member: every other member of the stored
    object is persisted as it was. *)
Theorem other_members_kept m roleData roleId p :
  schema (load dbPath p) = true ->
  m ≠ "roles" ->
  document_member m (load dbPath (snd (upsertRole dbPath roleData p)))
  = document_member m (load dbPath p)
  /\ document_member m (load dbPath (snd (deleteRole dbPath roleId p)))
     = document_member m (load dbPath p).
Proof.
  intros Hs Hm. split.
  - rewrite (load_after_upsertRole laws) by done.
    by apply document_member_with_roles.
  - rewrite load_after_deleteRole by done.
    repeat case_match; try done. by apply document_member_with_roles.
Qed.

Lemma fold_js_assign_fresh (rs : list RoleData) o :
  NoDup (map fst o ++ map (fun r => to_property_key (Role.id r)) rs) ->
  "__proto__" ∉ map (fun r => to_property_key (Role.id r)) rs ->
  fold_left
    (fun o r => js_assign o (to_property_key (Role.id r)) (role_object r))
    rs o
  = o ++ map (fun r => (to_property_key (Role.id r), role_object r)) rs.
Proof.
  revert o. induction rs as [|r rs IH]; intros o Hnd Hproto; simpl.
  - by rewrite app_nil_r.
  - simpl in Hproto. apply not_elem_of_cons in Hproto as [Hp Hproto].
    assert (Hfresh : own_get (to_property_key (Role.id r)) o = None).
    { apply own_get_None. intros Hin.
      apply NoDup_app in Hnd as (_ & Hdisj & _).
      apply (Hdisj _ Hin). simpl. apply list_elem_of_here. }
    unfold js_assign at 2. rewrite Hfresh.
    rewrite bool_decide_eq_false_2 by congruence.
    rewrite own_set_keys_fresh by done. rewrite IH.
    + by rewrite <- app_assoc.
    + rewrite map_app. simpl. by rewrite <- app_assoc.
    + done.
Qed.

(** X20.  Upserting any number of records with pairwise distinct keys,
    none of them ["__proto__"], into an empty store: [listRoles] returns
    exactly those records, in some order. *)
Theorem listRoles_after_upserts (rs : list RoleData) :
  NoDup (map (fun r => to_property_key (Role.id r)) rs) ->
  "__proto__" ∉ map (fun r => to_property_key (Role.id r)) rs ->
  exists listed,
    fst (listRoles dbPath (upsert_all dbPath rs empty_store)) = Ok listed
    /\ listed ≡ₚ map role_object rs.
Proof.
  intros Hnd Hproto. rewrite (listRoles_after_upsert_all laws).
  rewrite fold_js_assign_fresh by done. simpl.
  eexists. split; [reflexivity|]. rewrite map_map. simpl. done.
Qed.

(** X21.  In every reachable store [listRoles] and [getRole] agree: each
    record that [listRoles] returns carries an id, and [getRole] with that
    id resolves to the record. *)
Theorem listed_records_are_found p listed v :
  reachable dbPath p ->
  fst (listRoles dbPath p) = Ok listed ->
  v ∈ listed ->
  exists k, id_is k v /\ fst (getRole dbPath k p) = Ok (Json v).
Proof.
  intros Hreach Hlist Hv.
  destruct (keyed_by_id_reachable laws dbPath p Hreach) as [Hs Hall].
  rewrite listRoles_MemFs in Hlist by done. simpl in Hlist.
  injection Hlist as <-.
  apply list_elem_of_fmap in Hv as ([k v'] & -> & Hin). simpl.
  exists k. split; [by apply Hall|].
  rewrite getRole_MemFs by done. simpl.
  pose proof (wf_roles_in _ (wf_load laws dbPath p)) as Hwf.
  apply wf_JObj in Hwf as [Hnd _].
  unfold roles_in in *. destruct (roles_object (load dbPath p)) as [r|];
    [|by apply elem_of_nil in Hin].
  unfold js_get. rewrite (own_get_elem _ _ _ Hnd Hin).
  specialize (Hall k v' Hin). by destruct v'.
Qed.

End record_store_sequences.

(* ===================================================================== *)
(** * Further properties of [FileDB] over [RealFs] *)
(* ===================================================================== *)

Lemma RealFs_read_unfaulted w path :
  w_fault w (SysReadFile path) = None ->
  RealFs_read path w = (Ok (file_text path w), traced (SysReadFile path) w).
Proof.
  intros Hf. unfold RealFs_read, try_catch, readFile, file_text. simpl.
  rewrite Hf. by destruct (w_files w !! path).
Qed.

(** [RealFs.write] on a full disk: the error, and the files as before. *)
Lemma RealFs_write_disk_full w path content code :
  write_fails_with code w ->
  w_files w !! tmp_name w = None ->
  exists w',
    RealFs_write path content w = (Throw (ErrnoException code), w')
    /\ w_files w' = w_files w.
Proof.
  intros Hfull Hfresh.
  unfold RealFs_write, bind, mkdir. simpl. rewrite Hfull.
  unfold tmp_fileSync. simpl. unfold tmp_name in *. simpl.
  rewrite Hfull, Hfresh. unfold try_finally, bind, writeFile. simpl.
  rewrite Hfull. unfold removeCallback. simpl. rewrite Hfull.
  eexists. split; [reflexivity|]. simpl.
  rewrite insert_insert_eq, delete_insert_eq. by apply delete_id.
Qed.

Section FileDB_RealFs.

Context {codec : JsonCodec} (laws : JsonLaws codec).
Variable dbPath : string.

Implicit Type P : process world.

(** X22.  Over [RealFs], in a world where no call fails and the temporary
    directory is on the file system of the database file: [upsertRole]
    resolves, the file then holds the new document, and [getRole] with the
    key of the record returns the record (any key but ["__proto__"]). *)
Theorem upsertRole_then_getRole_RealFs roleData P db :
  calm (disk P) ->
  w_files (disk P) !! tmp_name (disk P) = None ->
  dbPath ≠ tmp_name (disk P) ->
  w_device (disk P) (dirname (tmp_name (disk P)))
  = w_device (disk P) (dirname dbPath) ->
  JSON_parse (file_text dbPath (disk P)) = Some db ->
  schema db = true ->
  to_property_key (Role.id roleData) ≠ "__proto__" ->
  let P' := snd (upsertRole dbPath roleData P) in
  fst (upsertRole dbPath roleData P) = Ok Undefined
  /\ file_text dbPath (disk P')
     = JSON_stringify
         (with_roles
            (js_assign (roles_in db) (to_property_key (Role.id roleData))
               (role_object roleData)) db)
  /\ fst (getRole dbPath (to_property_key (Role.id roleData)) P')
     = Ok (Json (role_object roleData)).
Proof.
  intros Hcalm Hfresh Hne Hdev Hparse Hs Hk.
  set (k := to_property_key (Role.id roleData)).
  set (doc := with_roles (js_assign (roles_in db) k (role_object roleData)) db).
  pose proof (RealFs_read_unfaulted (disk P) dbPath (Hcalm _)) as Hread.
  pose proof (upsertRole_writes dbPath P _ _ db roleData Hread Hparse Hs)
    as Hup.
  fold k doc in Hup.
  destruct (RealFs_write_calm (traced (SysReadFile dbPath) (disk P)) dbPath
              (JSON_stringify doc))
    as (w' & Hw & Hfiles & Hfault & _); try done.
  simpl in Hup. rewrite Hw in Hup. intros P'. subst P'. rewrite Hup. simpl.
  assert (Htext : file_text dbPath w' = JSON_stringify doc).
  { unfold file_text. rewrite Hfiles. by rewrite lookup_insert_eq. }
  split; [done|]. split; [done|].
  assert (Hwf : wf doc = true).
  { apply wf_with_roles; [by eapply parse_wf|].
    apply wf_js_assign; [|apply wf_role_object].
    apply wf_roles_in. by eapply parse_wf. }
  rewrite (getRole_reads dbPath _ (JSON_stringify doc)
             (traced (SysReadFile dbPath) w') doc
             (js_assign (roles_in db) k (role_object roleData))).
  - unfold js_get. by rewrite js_assign_get.
  - simpl. rewrite <- Htext. apply RealFs_read_unfaulted.
    rewrite Hfault. apply Hcalm.
  - by apply parse_stringify.
  - by apply roles_object_with_roles.
Qed.

(** X23.  Over [RealFs] on a full disk: [upsertRole] throws the error of
    the failed write to its caller and the files, the database file among
    them, are exactly those before the call. *)
Theorem upsertRole_on_full_disk roleData P db code :
  write_fails_with code (disk P) ->
  w_files (disk P) !! tmp_name (disk P) = None ->
  JSON_parse (file_text dbPath (disk P)) = Some db ->
  schema db = true ->
  fst (upsertRole dbPath roleData P) = Throw (ErrnoException code)
  /\ w_files (disk (snd (upsertRole dbPath roleData P))) = w_files (disk P).
Proof.
  intros Hfull Hfresh Hparse Hs.
  assert (Hnoread : w_fault (disk P) (SysReadFile dbPath) = None)
    by by rewrite Hfull.
  pose proof (RealFs_read_unfaulted (disk P) dbPath Hnoread) as Hread.
  pose proof (upsertRole_writes dbPath P _ _ db roleData Hread Hparse Hs)
    as Hup.
  destruct (RealFs_write_disk_full (traced (SysReadFile dbPath) (disk P))
              dbPath
              (JSON_stringify
                 (with_roles
                    (js_assign (roles_in db)
                       (to_property_key (Role.id roleData))
                       (role_object roleData)) db)) code)
    as (w' & Hw & Hfiles); try done.
  simpl in Hup. rewrite Hw in Hup. by rewrite Hup.
Qed.

End FileDB_RealFs.

Section FileDB_any_Fs_delete.

Context {codec : JsonCodec} {St : Type} {fs : Fs St}.
Variable dbPath : string.

Implicit Type p : process St.

(** X24.  [deleteRole] for an id that names no member of
    [Object.prototype]: if the [roles] object has a truthy entry under the
    id, the document without that entry is written and the result is
    [true]; otherwise the result is [false] and [fs.write] is not
    called. *)
Theorem deleteRole_by_id p content d1 d r roleId :
  read dbPath (disk p) = (Ok content, d1) ->
  JSON_parse content = Some (JObj d) ->
  own_get "roles" d = Some (JObj r) ->
  roleId ∉ object_prototype_keys ->
  deleteRole dbPath roleId p
  = if match own_get roleId r with
       | Some v => truthy_json v
       | None => false
       end
    then
      let (w, d2) :=
        write dbPath
          (JSON_stringify
             (JObj (own_set "roles" (JObj (own_delete roleId r)) d)))
          d1 in
      (match w with
       | Ok _ => Ok true
       | Throw e => Throw e
       | OutsideSchema => OutsideSchema
       end, {| disk := d2; console := console p |})
    else (Ok false, {| disk := d1; console := console p |}).
Proof.
  intros Hread Hparse Hroles Hproto. unfold deleteRole, bind.
  rewrite (readDb_parsed _ _ _ _ _ Hread Hparse). cbv beta iota.
  unfold get_roles, ret, js_get, writeDb, on_disk. rewrite Hroles.
  destruct (own_get roleId r) as [v|]; simpl.
  - destruct (truthy_json v); simpl; [|done].
    by destruct (write _ _ _) as [[] ?].
  - by rewrite bool_decide_eq_false_2.
Qed.

End FileDB_any_Fs_delete.

Section record_store_upsert.

Context {codec : JsonCodec} (laws : JsonLaws codec).
Variable dbPath : string.

Implicit Type p : process (gmap string string).

(** X25.  After [upsertRole], for any key but ["__proto__"], the record is
    among those that [listRoles] returns. *)
Theorem upserted_record_is_listed roleData p :
  schema (load dbPath p) = true ->
  to_property_key (Role.id roleData) ≠ "__proto__" ->
  exists listed,
    fst (listRoles dbPath (snd (upsertRole dbPath roleData p))) = Ok listed
    /\ role_object roleData ∈ listed.
Proof.
  intros Hs Hk.
  rewrite listRoles_MemFs by by apply (schema_after_upsertRole laws).
  simpl. eexists. split; [reflexivity|].
  rewrite (roles_after_upsertRole laws) by done.
  apply list_elem_of_fmap.
  exists (to_property_key (Role.id roleData), role_object roleData).
  split; [done|]. by apply own_get_Some_elem, js_assign_get.
Qed.


End record_store_upsert.

(** [deleteRole("x")] and [deleteRole("y")] on the store that holds [x]. *)
Lemma deleteRole_by_id_witness :
  fst (deleteRole default_dbPath "x" one_role_store) = Ok true
  /\ deleteRole default_dbPath "y" one_role_store = (Ok false, one_role_store).
Proof.
  pose (r := [("x", JObj [("id", JStr "x"); ("name", JStr "n")])]).
  assert (Hread : read default_dbPath (disk one_role_store)
                  = (Ok (blob default_dbPath one_role_store),
                     disk one_role_store))
    by (vm_compute; reflexivity).
  assert (Hparse : JSON_parse (blob default_dbPath one_role_store)
                   = Some (JObj [("roles", JObj r)]))
    by (vm_compute; reflexivity).
  split.
  - rewrite (deleteRole_by_id default_dbPath one_role_store _ _
               [("roles", JObj r)] r "x" Hread Hparse eq_refl);
      [reflexivity|].
    apply (bool_decide_unpack _). vm_compute. exact I.
  - rewrite (deleteRole_by_id default_dbPath one_role_store _ _
               [("roles", JObj r)] r "y" Hread Hparse eq_refl);
      [vm_compute; reflexivity|].
    apply (bool_decide_unpack _). vm_compute. exact I.
Defined.

(** [upsertRole] of [y] into the store that holds [x]. *)
Lemma upserted_record_is_listed_witness :
  exists listed,
    fst (listRoles default_dbPath
           (snd (upsertRole default_dbPath (role (Some "y") (Some "m"))
                   one_role_store)))
    = Ok listed
    /\ JObj [("id", JStr "y"); ("name", JStr "m")] ∈ listed.
Proof.
  apply (upserted_record_is_listed json_codec_laws default_dbPath
           (role (Some "y") (Some "m")) one_role_store).
  - vm_compute; reflexivity.
  - discriminate.
Defined.


(* ===================================================================== *)
(** * The further properties at concrete inputs *)
(* ===================================================================== *)

Lemma calm_quiet_world : calm quiet_world.
Proof. intros c. reflexivity. Qed.

Lemma full_disk_world_fails : write_fails_with "ENOSPC" full_disk_world.
Proof. intros c. by destruct c. Qed.

(** Writes to [a], [k], [k] and [b], then [read("k")]. *)
Lemma MemFs_read_last_write_witness :
  fst (read "k"
         (fold_left (fun fs kc => snd (write (fst kc) (snd kc) fs))
            [("a", "1"); ("k", "old"); ("k", "new"); ("b", "2")]
            (∅ : gmap string string)))
  = Ok "new".
Proof.
  apply (MemFs_read_last_write [("a", "1"); ("k", "old")] [("b", "2")]
           "k" "new" ∅).
  apply (bool_decide_unpack _). vm_compute. exact I.
Defined.

(** [RealFs.write] of the default database file in the quiet world. *)
Lemma RealFs_write_then_read_witness :
  exists w',
    RealFs_write default_dbPath "new" quiet_world = (Ok tt, w')
    /\ fst (RealFs_read default_dbPath w') = Ok "new"
    /\ w_files w' = {[ default_dbPath := "new" ]}.
Proof.
  destruct (RealFs_write_then_read quiet_world default_dbPath "new")
    as (w' & Hw & Hr & Hf & _).
  - exact calm_quiet_world.
  - vm_compute; reflexivity.
  - vm_compute; discriminate.
  - reflexivity.
  - exists w'. split; [exact Hw|]. split; [exact Hr|]. rewrite Hf.
    reflexivity.
Defined.

(** [RealFs.write] with [/tmp] on a file system of its own. *)
Lemma RealFs_write_never_succeeds_across_devices_witness :
  fst (RealFs_write default_dbPath "new" split_world) ≠ Ok tt
  /\ w_files (snd (RealFs_write default_dbPath "new" split_world))
       !! default_dbPath = None.
Proof.
  destruct (RealFs_write_never_succeeds_across_devices split_world
              default_dbPath "new") as [Hno Hf].
  - vm_compute; discriminate.
  - vm_compute; discriminate.
  - split; [exact Hno|]. rewrite Hf. vm_compute; reflexivity.
Defined.

(** [RealFs.read] of a file the process may not read. *)
Lemma RealFs_read_rethrows_witness :
  fst (RealFs_read default_dbPath unreadable_world)
  = Throw (ErrnoException "EACCES")
  /\ w_files (snd (RealFs_read default_dbPath unreadable_world))
     = w_files unreadable_world.
Proof.
  apply (RealFs_read_rethrows unreadable_world default_dbPath "EACCES");
    [reflexivity | discriminate].
Defined.

(** The four calls over [RealFs] when the file may not be read. *)
Lemma read_failure_reaches_caller_witness :
  let P := {| disk := unreadable_world; console := [] |} in
  fst (listRoles default_dbPath P) = Throw (ErrnoException "EACCES")
  /\ fst (upsertRole default_dbPath (role (Some "x") None) P)
     = Throw (ErrnoException "EACCES")
  /\ w_files (disk (snd (upsertRole default_dbPath (role (Some "x") None) P)))
     = w_files unreadable_world.
Proof.
  intros P.
  destruct (read_failure_reaches_caller default_dbPath P
              (ErrnoException "EACCES")
              (snd (RealFs_read default_dbPath unreadable_world)))
    as (Hl & _ & Hu & _).
  - vm_compute; reflexivity.
  - rewrite Hl, Hu. repeat split.
Defined.

(** The four calls on the document [null]. *)
Lemma null_document_throws_witness :
  fst (getRole default_dbPath "x" null_store) = Throw TypeError
  /\ deleteRole default_dbPath "x" null_store = (Throw TypeError, null_store).
Proof.
  destruct (null_document_throws default_dbPath null_store "null"
              (disk null_store)) as (_ & Hg & _ & Hd).
  - vm_compute; reflexivity.
  - vm_compute; reflexivity.
  - rewrite Hg, Hd. split; reflexivity.
Defined.

(** The four calls on the document [42]. *)
Lemma primitive_document_witness :
  fst (listRoles default_dbPath number_store) = Ok []
  /\ fst (upsertRole default_dbPath (role (Some "x") None) number_store)
     = Throw TypeError.
Proof.
  destruct (primitive_document default_dbPath number_store "42"
              (disk number_store) (JNum 42)) as (Hl & _ & Hu & _).
  - vm_compute; reflexivity.
  - vm_compute; reflexivity.
  - reflexivity.
  - rewrite Hl, Hu. split; reflexivity.
Defined.

(** [upsertRole] on the document [[1]]. *)
Lemma upsertRole_into_array_witness :
  fst (upsertRole default_dbPath (role (Some "x") None) array_store)
  = Ok Undefined
  /\ load default_dbPath
       (snd (upsertRole default_dbPath (role (Some "x") None) array_store))
     = JArr [JNum 1].
Proof.
  rewrite (upsertRole_into_array default_dbPath array_store "[1]"
             (disk array_store) [JNum 1]).
  - split; vm_compute; reflexivity.
  - vm_compute; reflexivity.
  - vm_compute; reflexivity.
Defined.

(** Reads of a store that holds the empty schema. *)
Lemma parsed_text_is_only_read_witness :
  snd (listRoles default_dbPath reset_store) = reset_store
  /\ snd (getRole default_dbPath "x" reset_store) = reset_store.
Proof.
  destruct (parsed_text_is_only_read default_dbPath reset_store
              (Json.stringify emptyDb) (disk reset_store) emptyDb)
    as (Hl & Hg & _).
  - vm_compute; reflexivity.
  - vm_compute; reflexivity.
  - rewrite Hl, Hg. split; reflexivity.
Defined.

(** [getRole("x")] and [getRole("y")] on the store that holds [x]. *)
Lemma getRole_by_id_witness :
  fst (getRole default_dbPath "x" one_role_store)
  = Ok (Json (JObj [("id", JStr "x"); ("name", JStr "n")]))
  /\ fst (getRole default_dbPath "y" one_role_store) = Ok (Json JNull).
Proof.
  pose (r := [("x", JObj [("id", JStr "x"); ("name", JStr "n")])]).
  assert (Hread : read default_dbPath (disk one_role_store)
                  = (Ok (blob default_dbPath one_role_store),
                     disk one_role_store))
    by (vm_compute; reflexivity).
  assert (Hparse : JSON_parse (blob default_dbPath one_role_store)
                   = Some (JObj [("roles", JObj r)]))
    by (vm_compute; reflexivity).
  split.
  - rewrite (getRole_by_id default_dbPath one_role_store _ _
               [("roles", JObj r)] r "x" Hread Hparse eq_refl);
      [reflexivity|].
    apply (bool_decide_unpack _). vm_compute. exact I.
  - rewrite (getRole_by_id default_dbPath one_role_store _ _
               [("roles", JObj r)] r "y" Hread Hparse eq_refl);
      [reflexivity|].
    apply (bool_decide_unpack _). vm_compute. exact I.
Defined.

(** [readDb] twice on damaged text. *)
Lemma readDb_twice_witness :
  let p1 := snd (readDb default_dbPath damaged_store) in
  readDb default_dbPath p1 = (Ok emptyDb, p1)
  /\ length (console p1) = 2.
Proof.
  intros p1. unfold p1.
  rewrite (readDb_twice json_codec_laws default_dbPath damaged_store).
  split; vm_compute; reflexivity.
Defined.


(** An upsert into a damaged database that shares its [MemFs]. *)
Lemma other_blobs_untouched_witness :
  disk (after default_dbPath (UpsertRole (role (Some "x") None)) shared_store)
    !! "other.txt"
  = Some "data".
Proof.
  rewrite (other_blobs_untouched default_dbPath shared_store
             (UpsertRole (role (Some "x") None)) "other.txt").
  - vm_compute; reflexivity.
  - vm_compute; discriminate.
Defined.

(** Two upserts under the id [x]. *)
Lemma upsertRole_last_wins_witness :
  roles_in
    (load default_dbPath
       (snd (upsertRole default_dbPath (role (Some "x") (Some "m"))
               one_role_store)))
  = [("x", JObj [("id", JStr "x"); ("name", JStr "m")])].
Proof.
  unfold one_role_store.
  rewrite (upsertRole_last_wins json_codec_laws default_dbPath
             (role (Some "x") (Some "n")) (role (Some "x") (Some "m"))
             empty_store).
  - vm_compute; reflexivity.
  - vm_compute; reflexivity.
  - reflexivity.
Defined.

(** An upsert of [y] next to [x]. *)
Lemma upsertRole_keeps_other_records_witness :
  fst (getRole default_dbPath "x"
         (snd (upsertRole default_dbPath (role (Some "y") None)
                 one_role_store)))
  = Ok (Json (JObj [("id", JStr "x"); ("name", JStr "n")])).
Proof.
  rewrite (upsertRole_keeps_other_records json_codec_laws default_dbPath
             (role (Some "y") None) "x" one_role_store).
  - vm_compute; reflexivity.
  - vm_compute; reflexivity.
  - discriminate.
  - apply (bool_decide_unpack _). vm_compute. exact I.
Defined.

(** Upsert of [x], delete of [x], get of [x], from the empty store. *)
Lemma upsertRole_deleteRole_then_getRole_witness :
  fst (deleteRole default_dbPath "x" one_role_store) = Ok true
  /\ fst (getRole default_dbPath "x"
            (snd (deleteRole default_dbPath "x" one_role_store)))
     = Ok (Json JNull).
Proof.
  apply (upsertRole_deleteRole_then_getRole json_codec_laws default_dbPath
           (role (Some "x") (Some "n")) empty_store).
  - vm_compute; reflexivity.
  - apply (bool_decide_unpack _). vm_compute. exact I.
Defined.

(** Deleting [x] from the store that holds [x] and [y]. *)
Lemma deleteRole_keeps_other_records_witness :
  fst (getRole default_dbPath "y"
         (snd (deleteRole default_dbPath "x" two_roles_store)))
  = Ok (Json (JObj [("id", JStr "y"); ("name", JStr "m")])).
Proof.
  rewrite (deleteRole_keeps_other_records json_codec_laws default_dbPath
             "x" "y" two_roles_store).
  - vm_compute; reflexivity.
  - vm_compute; reflexivity.
  - discriminate.
Defined.

(** Deleting [x] twice. *)
Lemma deleteRole_twice_witness :
  fst (deleteRole default_dbPath "x" one_role_store) = Ok true
  /\ fst (deleteRole default_dbPath "x"
            (snd (deleteRole default_dbPath "x" one_role_store)))
     = Ok false.
Proof.
  split; [vm_compute; reflexivity|].
  rewrite (deleteRole_twice json_codec_laws default_dbPath "x" one_role_store).
  - reflexivity.
  - vm_compute; reflexivity.
  - apply (bool_decide_unpack _). vm_compute. exact I.
Defined.

(** An upsert and a delete on a document with a [version] member. *)
Lemma other_members_kept_witness :
  document_member "version"
    (load default_dbPath
       (snd (upsertRole default_dbPath (role (Some "x") None) versioned_store)))
  = Some (JNum 1)
  /\ document_member "version"
       (load default_dbPath
          (snd (deleteRole default_dbPath "x" versioned_store)))
     = Some (JNum 1).
Proof.
  destruct (other_members_kept json_codec_laws default_dbPath "version"
              (role (Some "x") None) "x" versioned_store) as [Hu Hd].
  - vm_compute; reflexivity.
  - discriminate.
  - rewrite Hu, Hd. split; vm_compute; reflexivity.
Defined.

(** Upserts of [x] and [y], then [listRoles]. *)
Lemma listRoles_after_upserts_witness :
  exists listed,
    fst (listRoles default_dbPath two_roles_store) = Ok listed
    /\ listed ≡ₚ [JObj [("id", JStr "x"); ("name", JStr "n")];
                  JObj [("id", JStr "y"); ("name", JStr "m")]].
Proof.
  apply (listRoles_after_upserts json_codec_laws default_dbPath
           [role (Some "x") (Some "n"); role (Some "y") (Some "m")]).
  - apply (bool_decide_unpack _). vm_compute. exact I.
  - apply (bool_decide_unpack _). vm_compute. exact I.
Defined.

(** The record listed by the store that holds [x]. *)
Lemma listed_records_are_found_witness :
  exists k,
    id_is k (JObj [("id", JStr "x"); ("name", JStr "n")])
    /\ fst (getRole default_dbPath k one_role_store)
       = Ok (Json (JObj [("id", JStr "x"); ("name", JStr "n")])).
Proof.
  apply (listed_records_are_found json_codec_laws default_dbPath
           one_role_store
           [JObj [("id", JStr "x"); ("name", JStr "n")]]).
  - apply (reachable_step default_dbPath
             (UpsertRole (role (Some "x") (Some "n"))) empty_store);
      [simpl; eauto | apply reachable_empty].
  - vm_compute; reflexivity.
  - apply list_elem_of_here.
Defined.

(** [upsertRole] then [getRole] over [RealFs] in the quiet world. *)
Lemma upsertRole_then_getRole_RealFs_witness :
  let P := {| disk := quiet_world; console := [] |} in
  fst (upsertRole default_dbPath (role (Some "x") (Some "n")) P)
  = Ok Undefined
  /\ fst (getRole default_dbPath "x"
            (snd (upsertRole default_dbPath (role (Some "x") (Some "n")) P)))
     = Ok (Json (JObj [("id", JStr "x"); ("name", JStr "n")])).
Proof.
  intros P.
  destruct (upsertRole_then_getRole_RealFs json_codec_laws default_dbPath
              (role (Some "x") (Some "n")) P (JObj []))
    as (Hu & _ & Hg).
  - exact calm_quiet_world.
  - vm_compute; reflexivity.
  - vm_compute; discriminate.
  - reflexivity.
  - vm_compute; reflexivity.
  - reflexivity.
  - discriminate.
  - split; [exact Hu | exact Hg].
Defined.

(** [upsertRole] over [RealFs] on the full disk. *)
Lemma upsertRole_on_full_disk_witness :
  let P := {| disk := full_disk_world; console := [] |} in
  fst (upsertRole default_dbPath (role (Some "x") (Some "n")) P)
  = Throw (ErrnoException "ENOSPC")
  /\ w_files (disk (snd (upsertRole default_dbPath
                           (role (Some "x") (Some "n")) P)))
     = {[ default_dbPath := "{}" ]}.
Proof.
  intros P.
  destruct (upsertRole_on_full_disk default_dbPath
              (role (Some "x") (Some "n")) P (JObj []) "ENOSPC")
    as (Hu & Hf).
  - exact full_disk_world_fails.
  - vm_compute; reflexivity.
  - vm_compute; reflexivity.
  - reflexivity.
  - split; [exact Hu | rewrite Hf; reflexivity].
Defined.
